(** * tstrait: the genetic-value core of [tstrait/phenotype.py]

    A shallow embedding of the traversal, resolver, accumulator and reducer
    functions of [tstrait/phenotype.py], with the properties of its
    specification stated and settled against it.

    Conventions.
    - Node ids, array entries and indices are Python/numpy integers: [Z].
      [NONE] is tskit's [-1].
    - numpy arrays and Python lists are [list]s; indexing follows Python
      (a negative index counts from the end, anything else out of range
      raises [IndexError]).
    - Genetic values, effect sizes, times and frequencies are floats in the
      source and exact rationals [Q] here.
    - Python exceptions are the constructors of [exn]; a [while] loop takes
      fuel and reports [OutOfFuel] when it is exhausted. *)

From Stdlib Require Import String Bool Arith ZArith QArith Lia List Permutation.
Import ListNotations.
Local Open Scope Z_scope.

(** ** Results of Python computations *)

Inductive exn : Type :=
| IndexError          (* sequence index out of range *)
| ValueError          (* list.remove(x): x not in list; numpy shape and size errors *)
| NameError           (* a global name that is bound nowhere *)
| ZeroDivisionError   (* int / 0 *)
| LibraryError.       (* a tskit accessor that rejects its argument *)

Inductive result (A : Type) : Type :=
| Ok (a : A)
| Raise (e : exn)
| OutOfFuel.

Arguments Ok {A} a.
Arguments Raise {A} e.
Arguments OutOfFuel {A}.

Definition bind {A B} (r : result A) (k : A -> result B) : result B :=
  match r with
  | Ok a => k a
  | Raise e => Raise e
  | OutOfFuel => OutOfFuel
  end.

Notation "x <- e ;; k" := (bind e (fun x => k))
  (at level 61, e at next level, right associativity).

Fixpoint mapM {A B} (f : A -> result B) (l : list A) : result (list B) :=
  match l with
  | [] => Ok []
  | x :: r => y <- f x ;; ys <- mapM f r ;; Ok (y :: ys)
  end.

(** ** Python sequences *)

Definition NONE : Z := -1.

Definition len {A} (a : list A) : Z := Z.of_nat (length a).

(** [a[i]]: a negative [i] stands for [len(a) + i]. *)
Definition norm_index {A} (a : list A) (i : Z) : option nat :=
  let j := if i <? 0 then i + len a else i in
  if (0 <=? j) && (j <? len a) then Some (Z.to_nat j) else None.

Definition getitem {A} (a : list A) (i : Z) : result A :=
  match norm_index a i with
  | Some j =>
      match nth_error a j with
      | Some x => Ok x
      | None => Raise IndexError
      end
  | None => Raise IndexError
  end.

Fixpoint update_nth {A} (a : list A) (j : nat) (x : A) : list A :=
  match a, j with
  | [], _ => []
  | _ :: r, O => x :: r
  | y :: r, S j => y :: update_nth r j x
  end.

(** [a[i] = x] *)
Definition setitem {A} (a : list A) (i : Z) (x : A) : result (list A) :=
  match norm_index a i with
  | Some j => Ok (update_nth a j x)
  | None => Raise IndexError
  end.

(** [l.pop()] on a non-empty list: the last element leaves the list. *)
Definition pop {A} (l : list A) : option (list A * A) :=
  match rev l with
  | [] => None
  | x :: r => Some (rev r, x)
  end.

(** [l.remove(x)]: the first occurrence goes, [ValueError] when there is none. *)
Fixpoint list_remove (l : list Z) (x : Z) : result (list Z) :=
  match l with
  | [] => Raise ValueError
  | y :: r => if y =? x then Ok r else r' <- list_remove r x ;; Ok (y :: r')
  end.

(** ** tskit objects, as far as the module reads them *)

Record Tree : Type := {
  left_child_array : list Z;
  right_sib_array : list Z
}.

Record Mutation : Type := {
  node : Z;
  derived_state : string;
  time : Q;
  parent : Z
}.

Record Site : Type := {
  mutations : list Mutation;
  ancestral_state : string;
  position : Q
}.

(** The accessors of a tree sequence are library code: they are fields of
    the input.  [seek loc] is [tree = ts.first()] followed by
    [tree.seek(loc)]. *)
Record TreeSequence : Type := {
  samples : list Z;
  site : Z -> result Site;
  mutation : Z -> result Mutation;
  seek : Q -> result Tree
}.

Definition num_samples (ts : TreeSequence) : Z := len (samples ts).

(** ** [obtain_sample_nodes] (lines 130-145) *)

(** The inner loop
<<
    while child != -1:
        stack.append(child)
        child = right_sib_array[child]
>> *)
Fixpoint push_children (fuel : nat) (right_sib : list Z) (child : Z)
    (stack : list Z) : result (list Z) :=
  if child =? NONE then Ok stack
  else
    match fuel with
    | O => OutOfFuel
    | S fuel =>
        next <- getitem right_sib child ;;
        push_children fuel right_sib next (stack ++ [child])
    end.

(** The body of the outer loop once [parent = stack.pop()] is done.  The
    [else] branch appends [child], which is [-1] there. *)
Definition visit (fuel : nat) (left_child right_sib : list Z) (parent : Z)
    (stack sample_node : list Z) : result (list Z * list Z) :=
  child <- getitem left_child parent ;;
  if negb (child =? NONE) then
    stack' <- push_children fuel right_sib child stack ;;
    Ok (stack', sample_node)
  else
    Ok (stack, sample_node ++ [child]).

Fixpoint traverse (fuel : nat) (left_child right_sib : list Z)
    (stack sample_node : list Z) : result (list Z) :=
  match pop stack with
  | None => Ok sample_node
  | Some (stack, parent) =>
      match fuel with
      | O => OutOfFuel
      | S fuel =>
          st <- visit fuel left_child right_sib parent stack sample_node ;;
          traverse fuel left_child right_sib (fst st) (snd st)
      end
  end.

Definition obtain_sample_nodes (fuel : nat) (root : Z)
    (left_child_array right_sib_array : list Z) : result (list Z) :=
  traverse fuel left_child_array right_sib_array [root] [].

(** The nodes the outer loop pops, in order: the values [parent] takes. *)
Fixpoint visited (fuel : nat) (left_child right_sib : list Z)
    (stack sample_node : list Z) : list Z :=
  match pop stack with
  | None => []
  | Some (stack, parent) =>
      match fuel with
      | O => []
      | S fuel =>
          parent ::
          match visit fuel left_child right_sib parent stack sample_node with
          | Ok st => visited fuel left_child right_sib (fst st) (snd st)
          | _ => []
          end
      end
  end.

(** ** [remove_list] (lines 147-153) *)

Fixpoint remove_list (sample_nodes remove_nodes : list Z) : result (list Z) :=
  match remove_nodes with
  | [] => Ok sample_nodes
  | i :: rest =>
      sample_nodes' <- list_remove sample_nodes i ;;
      remove_list sample_nodes' rest
  end.

(** ** [causal_mutation_sample_nodes] (lines 155-170) *)

Definition Qltb (a b : Q) : bool := negb (Qle_bool b a).

(** [sorted(site.mutations, key=lambda x: x.time, reverse=True)]: the times
    descend and mutations of equal time keep the order they had. *)
Fixpoint insert_by_time (m : Mutation) (l : list Mutation) : list Mutation :=
  match l with
  | [] => [m]
  | x :: r =>
      if Qltb (time m) (time x) then x :: insert_by_time m r else m :: x :: r
  end.

Definition sorted_by_time_reverse (l : list Mutation) : list Mutation :=
  fold_right insert_by_time [] l.

(** The [for m in mutation_list] loop, [sample_nodes] being its state. *)
Fixpoint resolve (fuel : nat) (ts : TreeSequence) (tree : Tree)
    (mutation_list : list Mutation) (causal_allele : string)
    (sample_nodes : list Z) : result (list Z) :=
  match mutation_list with
  | [] => Ok sample_nodes
  | m :: rest =>
      if String.eqb (derived_state m) causal_allele then
        keep_nodes <- obtain_sample_nodes fuel (node m)
                        (left_child_array tree) (right_sib_array tree) ;;
        resolve fuel ts tree rest causal_allele (sample_nodes ++ keep_nodes)
      else
        p <- mutation ts (parent m) ;;
        if String.eqb (derived_state p) causal_allele then
          remove_nodes <- obtain_sample_nodes fuel (node m)
                            (left_child_array tree) (right_sib_array tree) ;;
          sample_nodes' <- remove_list sample_nodes remove_nodes ;;
          resolve fuel ts tree rest causal_allele sample_nodes'
        else
          resolve fuel ts tree rest causal_allele sample_nodes
  end.

Definition causal_mutation_sample_nodes (fuel : nat) (ts : TreeSequence)
    (tree : Tree) (s : Site) (causal_allele : string) : result (list Z) :=
  resolve fuel ts tree (sorted_by_time_reverse (mutations s)) causal_allele [].

(** ** [node_genetic_value] (lines 172-199) *)

(** [np.max(a)]: a zero-size array has no maximum. *)
Definition np_max (a : list Z) : result Z :=
  match a with
  | [] => Raise ValueError
  | x :: r => Ok (fold_left Z.max r x)
  end.

(** [np.zeros(n)] *)
Definition np_zeros (n : Z) : result (list Q) :=
  if n <? 0 then Raise ValueError else Ok (repeat 0%Q (Z.to_nat n)).

(** [a / b] on Python integers. *)
Definition true_div (a b : Z) : result Q :=
  if b =? 0 then Raise ZeroDivisionError
  else Ok (inject_Z a / inject_Z b)%Q.

(** [G[idx] = vals], one assignment after the other. *)
Fixpoint scatter (G : list Q) (idx : list Z) (vals : list Q) : result (list Q) :=
  match idx, vals with
  | i :: idx', v :: vals' => G' <- setitem G i v ;; scatter G' idx' vals'
  | _, _ => Ok G
  end.

(** [G[idx] += beta] with a list of indices: numpy reads [G[idx]], adds
    [beta] and writes the sums back, so an index that occurs twice is
    incremented once. *)
Definition fancy_iadd (G : list Q) (idx : list Z) (beta : Q) : result (list Q) :=
  vals <- mapM (getitem G) idx ;;
  scatter G idx (map (fun v => (v + beta)%Q) vals).

(** Lines 189-191: the tree at [loc], the site, its carriers and their
    frequency. *)
Definition site_frequency (fuel : nat) (ts : TreeSequence) (site_id : list Z)
    (causal_allele : list string) (i : nat) (loc : Q) : result (list Z * Q) :=
  tree <- seek ts loc ;;
  sid <- getitem site_id (Z.of_nat i) ;;
  s <- site ts sid ;;
  a <- getitem causal_allele (Z.of_nat i) ;;
  causal_sample_nodes <- causal_mutation_sample_nodes fuel ts tree s a ;;
  freq_allele <- true_div (len causal_sample_nodes) (num_samples ts) ;;
  Ok (causal_sample_nodes, freq_allele).

(** Line 195 calls [sim_beta], a name that no [def], assignment or import
    of the module binds.  What the name is bound to is a parameter of the
    model: [None] is the module as it stands, [Some f] a module in which
    the [i]-th call returns [f i]. *)
Definition call_sim_beta (sim_beta : option (nat -> Q)) (i : nat) : result Q :=
  match sim_beta with
  | None => Raise NameError
  | Some f => Ok (f i)
  end.

Definition module_sim_beta : option (nat -> Q) := None.

(** The state of the [for i, loc in enumerate(location)] loop. *)
Record accumulator : Type := {
  acc_G : list Q;
  acc_beta_list : list Q;
  acc_frequency : list Q
}.

Fixpoint sites_loop (fuel : nat) (sim_beta : option (nat -> Q))
    (ts : TreeSequence) (site_id : list Z) (causal_allele : list string)
    (i : nat) (location : list Q) (st : accumulator) : result accumulator :=
  match location with
  | [] => Ok st
  | loc :: rest =>
      cf <- site_frequency fuel ts site_id causal_allele i loc ;;
      frequency <- setitem (acc_frequency st) (Z.of_nat i) (snd cf) ;;
      beta <- call_sim_beta sim_beta i ;;
      beta_list <- setitem (acc_beta_list st) (Z.of_nat i) beta ;;
      G <- fancy_iadd (acc_G st) (fst cf) beta ;;
      sites_loop fuel sim_beta ts site_id causal_allele (S i) rest
        {| acc_G := G; acc_beta_list := beta_list; acc_frequency := frequency |}
  end.

Definition node_genetic_value_with (sim_beta : option (nat -> Q)) (fuel : nat)
    (ts : TreeSequence) (site_id : list Z) (location : list Q)
    (causal_allele : list string) : result accumulator :=
  m <- np_max (samples ts) ;;
  G <- np_zeros (m + 1) ;;
  sites_loop fuel sim_beta ts site_id causal_allele 0 location
    {| acc_G := G;
       acc_beta_list := repeat 0%Q (length location);
       acc_frequency := repeat 0%Q (length location) |}.

(** The function of the module: its arguments [trait_mean], [trait_sd],
    [rng] and [model] are never read. *)
Definition node_genetic_value := node_genetic_value_with module_sim_beta.

(** ** [individual_genetic] (lines 202-208) *)

(** [a[::2]]; [a[1::2]] is [slice2 (tl a)]. *)
Fixpoint slice2 {A} (a : list A) : list A :=
  match a with
  | [] => []
  | [x] => [x]
  | x :: _ :: r => x :: slice2 r
  end.

(** [a + b] on one-dimensional arrays: equal lengths add elementwise, a
    length-1 operand is broadcast, other shapes do not fit. *)
Fixpoint zip_add (a b : list Q) : list Q :=
  match a, b with
  | x :: a', y :: b' => (x + y)%Q :: zip_add a' b'
  | _, _ => []
  end.

Definition np_add (a b : list Q) : result (list Q) :=
  if (length a =? length b)%nat then Ok (zip_add a b)
  else
    match a, b with
    | [x], _ => Ok (map (fun y => (x + y)%Q) b)
    | _, [y] => Ok (map (fun x => (x + y)%Q) a)
    | _, _ => Raise ValueError
    end.

Definition individual_genetic (ts : TreeSequence) (G : list Q) : result (list Q) :=
  G <- mapM (getitem G) (samples ts) ;;
  np_add (slice2 G) (slice2 (tl G)).

(** * Reference notions *)

(** ** Trees in first-child/next-sibling form

    A [forest] is what the two arrays encode: a node, the forest of its
    children (entered through [left_child]) and the forest of its later
    siblings (entered through [right_sib]). *)

Inductive forest : Type :=
| Empty
| Node (id : Z) (children : forest) (siblings : forest).

Definition first (f : forest) : Z :=
  match f with
  | Empty => NONE
  | Node u _ _ => u
  end.

(** The sibling chain that starts a forest. *)
Fixpoint roots (f : forest) : list Z :=
  match f with
  | Empty => []
  | Node u _ s => u :: roots s
  end.

Fixpoint ids (f : forest) : list Z :=
  match f with
  | Empty => []
  | Node u c s => u :: ids c ++ ids s
  end.

(** The leaves under node [u] whose children are [c]: [u] itself when it
    has none. *)
Definition leaves_of (u : Z) (leaves_children : list Z) (c : forest) : list Z :=
  match c with
  | Empty => [u]
  | Node _ _ _ => leaves_children
  end.

Fixpoint leaves (f : forest) : list Z :=
  match f with
  | Empty => []
  | Node u c s => leaves_of u (leaves c) c ++ leaves s
  end.

(** The order in which a stack that holds [roots f] gives its nodes up:
    the last sibling is popped first, and a node's children are pushed
    when it is popped. *)
Fixpoint visit_order (f : forest) : list Z :=
  match f with
  | Empty => []
  | Node u c s => visit_order s ++ u :: visit_order c
  end.

(** What the visit of a node whose children are [c] records. *)
Definition own_leaf (c : forest) : list Z :=
  match c with
  | Empty => [NONE]
  | Node _ _ _ => []
  end.

Definition reads (a : list Z) (i v : Z) : bool :=
  match getitem a i with
  | Ok x => x =? v
  | _ => false
  end.

(** The arrays hold forest [f]: every node is a non-negative id whose
    [left_child] entry is its first child and whose [right_sib] entry is
    its next sibling. *)
Fixpoint encodes (lc rs : list Z) (f : forest) : bool :=
  match f with
  | Empty => true
  | Node u c s =>
      (0 <=? u) && reads lc u (first c) && reads rs u (first s)
      && encodes lc rs c && encodes lc rs s
  end.

(** The arrays hold, under [root], the tree whose children are [kids];
    the sibling entry of [root] is not part of that tree. *)
Definition encodes_tree (lc rs : list Z) (root : Z) (kids : forest) : bool :=
  (0 <=? root) && reads lc root (first kids) && encodes lc rs kids.

(** ** The reducer and the sum law in the specification's words *)

(** One value per individual: copies [2i] and [2i+1] summed. *)
Fixpoint pair_sums (a : list Q) : list Q :=
  match a with
  | x :: y :: r => (x + y)%Q :: pair_sums r
  | _ => []
  end.

Definition sum_Q (a : list Q) : Q := fold_right Qplus 0%Q a.

(** Some mutation of the site has derived state [a]. *)
Definition has_derived_state (s : Site) (a : string) : bool :=
  existsb (fun m => String.eqb (derived_state m) a) (mutations s).

(** ** Sample inputs *)

(** Samples 0, 1 and 2; node 3 is the parent of 0 and 1, node 4 the parent
    of 3 and 2; slot 5 is the virtual root tskit appends to both arrays. *)
Definition example_tree : Tree :=
  {| left_child_array := [-1; -1; -1; 0; 3; 4];
     right_sib_array := [1; -1; -1; 2; -1; -1] |}.

Definition example_kids : forest :=
  Node 3 (Node 0 Empty (Node 1 Empty Empty)) (Node 2 Empty Empty).

(** A tree sequence over [example_tree] with the given mutation and site
    tables; both accessors index their table the way Python does. *)
Definition example_ts (samples : list Z) (table : list Mutation)
    (sites : list Site) : TreeSequence :=
  {| samples := samples;
     site := getitem sites;
     mutation := getitem table;
     seek := fun _ => Ok example_tree |}.

Definition mutation_at (u : Z) (state : string) (t : Q) (p : Z) : Mutation :=
  {| node := u; derived_state := state; time := t; parent := p |}.

Definition site_of (muts : list Mutation) : Site :=
  {| mutations := muts; ancestral_state := "A"; position := 0%Q |}.

(** The tree sequence of one site with mutations [muts], over the samples
    0, 1 and 2. *)
Definition ts_of (muts : list Mutation) : TreeSequence :=
  example_ts [0; 1; 2] muts [site_of muts].

(** [B] arises above node 4 and stays. *)
Definition founder_mutations : list Mutation :=
  [mutation_at 4 "B" 2 (-1)].

(** Ancestral [A]; [B] arises above node 4 and reverts to [A] above its
    child 3. *)
Definition back_mutations : list Mutation :=
  [mutation_at 4 "B" 2 (-1); mutation_at 3 "A" 1 0].

(** [B] arises above node 3 and reverts on the same branch. *)
Definition cancelled_mutations : list Mutation :=
  [mutation_at 3 "B" 2 (-1); mutation_at 3 "A" 1 0].

(** [B] arises above node 4 and the mutation above node 3 keeps it [B]. *)
Definition repeated_mutations : list Mutation :=
  [mutation_at 4 "B" 2 (-1); mutation_at 3 "B" 1 0].

(** Two independent mutations of the ancestral state, to [G] above node 3
    and to [T] above node 2. *)
Definition two_allele_mutations : list Mutation :=
  [mutation_at 3 "G" 2 (-1); mutation_at 2 "T" 1 (-1)].

(** * The rest of the module *)

(** ** [obtain_sample_index_map] (lines 12-16) *)

(** [np.zeros(n, dtype=int)] *)
Definition np_zeros_int (n : Z) : result (list Z) :=
  if n <? 0 then Raise ValueError else Ok (repeat 0 (Z.to_nat n)).

(** The [for j, u in enumerate(sample_id_list)] loop from index [j] on. *)
Fixpoint index_loop (j : Z) (sample_id_list sample_index_map : list Z)
    : result (list Z) :=
  match sample_id_list with
  | [] => Ok sample_index_map
  | u :: rest =>
      sample_index_map' <- setitem sample_index_map u j ;;
      index_loop (j + 1) rest sample_index_map'
  end.

Definition obtain_sample_index_map (num_nodes : Z) (sample_id_list : list Z)
    : result (list Z) :=
  zeros <- np_zeros_int (num_nodes + 1) ;;
  index_loop 0 sample_id_list (map (fun x => x - 1) zeros).

(** ** [environment] (lines 61-80) *)

(** The scale handed to the sampler: a number, or [np.sqrt] of one. *)
Inductive scale : Type :=
| Plain (q : Q)
| Sqrt (q : Q).

(** [rng = np.random.default_rng(random_seed)] is library code and an input
    of the model; [normal rng loc scale size] is
    [rng.normal(loc=loc, scale=scale, size=size)]. *)
Record Generator : Type := {
  normal : Q -> scale -> Z -> result (list Q)
}.

(** [np.var(a)]: the mean of the squared deviations from the mean. *)
Definition np_var (a : list Q) : Q :=
  let n := inject_Z (len a) in
  let mean := (sum_Q a / n)%Q in
  (sum_Q (map (fun x => (x - mean) * (x - mean)) a) / n)%Q.

(** The function returns the pair [(phenotype, E)]. *)
Definition environment (rng : Generator) (G : list Q) (h2 trait_sd : Q)
    : result (list Q * list Q) :=
  if len G =? 0 then Raise ValueError
  else if Qltb 1 h2 || Qltb h2 0 then Raise ValueError
  else
    let num_ind := len G in
    if Qeq_bool h2 1 then
      Ok (G, repeat 0%Q (Z.to_nat num_ind))
    else if Qeq_bool h2 0 then
      E <- normal rng 0 (Plain trait_sd) num_ind ;;
      Ok (E, E)
    else
      E <- normal rng 0 (Sqrt ((1 - h2) / h2 * np_var G)) num_ind ;;
      phenotype <- np_add G E ;;
      Ok (phenotype, E).

(** A sampler that draws zeros, the right number of them. *)
Definition zero_rng : Generator :=
  {| normal := fun _ _ size =>
       if size <? 0 then Raise ValueError else Ok (repeat 0%Q (Z.to_nat size)) |}.

(** ** Nodes below a node *)

(** The children of node [y] when [y] is a node of forest [f]. *)
Fixpoint children_of (y : Z) (f : forest) : option forest :=
  match f with
  | Empty => None
  | Node u c s =>
      if u =? y then Some c
      else
        match children_of y c with
        | Some k => Some k
        | None => children_of y s
        end
  end.

(** ** [update_node_values_array_access] (lines 112-127)

    The function is compiled by numba, which does not check array bounds;
    the model raises [IndexError] as numpy does, and the properties below
    are about indices within the arrays.  It returns nothing and updates
    [node_values] and [G] in place: the model returns both. *)

(** The inner loop
<<
    while child != -1:
        node_values[child] += node_values[parent]
        stack.append(child)
        child = right_sib_array[child]
>> *)
Fixpoint push_children_values (fuel : nat) (right_sib : list Z)
    (parent child : Z) (stack : list Z) (node_values : list Q)
    : result (list Z * list Q) :=
  if child =? NONE then Ok (stack, node_values)
  else
    match fuel with
    | O => OutOfFuel
    | S fuel =>
        c <- getitem node_values child ;;
        p <- getitem node_values parent ;;
        node_values' <- setitem node_values child (c + p)%Q ;;
        next <- getitem right_sib child ;;
        push_children_values fuel right_sib parent next
          (stack ++ [child]) node_values'
    end.

Record values_state : Type := {
  vs_stack : list Z;
  vs_node_values : list Q;
  vs_G : list Q
}.

(** The body of the outer loop once [parent = stack.pop()] is done. *)
Definition visit_values (fuel : nat) (left_child right_sib : list Z)
    (parent : Z) (stack : list Z) (node_values G : list Q)
    : result values_state :=
  child <- getitem left_child parent ;;
  if negb (child =? NONE) then
    st <- push_children_values fuel right_sib parent child stack node_values ;;
    Ok {| vs_stack := fst st; vs_node_values := snd st; vs_G := G |}
  else
    g <- getitem G parent ;;
    p <- getitem node_values parent ;;
    G' <- setitem G parent (g + p)%Q ;;
    Ok {| vs_stack := stack; vs_node_values := node_values; vs_G := G' |}.

Fixpoint update_loop (fuel : nat) (left_child right_sib : list Z)
    (stack : list Z) (node_values G : list Q) : result (list Q * list Q) :=
  match pop stack with
  | None => Ok (node_values, G)
  | Some (stack, parent) =>
      match fuel with
      | O => OutOfFuel
      | S fuel =>
          st <- visit_values fuel left_child right_sib parent stack
                  node_values G ;;
          update_loop fuel left_child right_sib
            (vs_stack st) (vs_node_values st) (vs_G st)
      end
  end.

Definition update_node_values_array_access (fuel : nat) (root : Z)
    (left_child_array right_sib_array : list Z) (node_values G : list Q)
    : result (list Q * list Q) :=
  update_loop fuel left_child_array right_sib_array [root] node_values G.

(** *** Values along the paths from the root *)

(** The entry of node [x]. *)
Definition at_node (a : list Q) (x : Z) : Q := nth (Z.to_nat x) a 0%Q.

Definition is_leaf (c : forest) : bool :=
  match c with
  | Empty => true
  | Node _ _ _ => false
  end.

(** For every node of [f], whether it is a leaf and the sum of its own
    value and the values of its ancestors, [above] being the sum for the
    parent of the roots of [f]. *)
Fixpoint path_values (node_values : list Q) (above : Q) (f : forest)
    : list (Z * Q * bool) :=
  match f with
  | Empty => []
  | Node u c s =>
      let v := (at_node node_values u + above)%Q in
      (u, v, is_leaf c) :: path_values node_values v c
        ++ path_values node_values above s
  end.

(** The same for the tree under [root], whose own value is its sum. *)
Definition tree_values (node_values : list Q) (root : Z) (kids : forest)
    : list (Z * Q * bool) :=
  (root, at_node node_values root, is_leaf kids)
  :: path_values node_values (at_node node_values root) kids.

(** * Properties *)

(** ** Results and sequences *)

Lemma bind_Ok {A B} (r : result A) (k : A -> result B) b :
  bind r k = Ok b -> exists a, r = Ok a /\ k a = Ok b.
Proof. destruct r; simpl; try discriminate. eauto. Qed.

(** [inv_bind H x E]: from [H : (x <- e ;; k) = Ok b] to [E : e = Ok x] and
    [H : k x = Ok b]. *)
Ltac inv_bind H x E :=
  apply bind_Ok in H; destruct H as (x & E & H).

Lemma pop_snoc {A} (l : list A) (x : A) : pop (l ++ [x]) = Some (l, x).
Proof.
  unfold pop. rewrite rev_app_distr. simpl. now rewrite rev_involutive.
Qed.

Lemma pop_nil {A} : pop (@nil A) = None.
Proof. reflexivity. Qed.

Lemma pop_None {A} (l : list A) : pop l = None -> l = [].
Proof.
  unfold pop. destruct (rev l) as [|y r] eqn:E; [|discriminate].
  intros _. rewrite <- (rev_involutive l), E. reflexivity.
Qed.

Lemma len_nonneg {A} (a : list A) : 0 <= len a.
Proof. unfold len. lia. Qed.

Lemma norm_index_nonneg {A} (a : list A) i :
  0 <= i < len a -> norm_index a i = Some (Z.to_nat i).
Proof.
  intros H. unfold norm_index.
  destruct (Z.ltb_spec i 0); [lia|].
  destruct (Z.leb_spec 0 i); [|lia].
  destruct (Z.ltb_spec i (len a)); [reflexivity|lia].
Qed.

Lemma getitem_nonneg (a : list Q) i :
  0 <= i < len a -> getitem a i = Ok (nth (Z.to_nat i) a 0%Q).
Proof.
  intros H. unfold getitem. rewrite norm_index_nonneg by assumption.
  destruct (nth_error a (Z.to_nat i)) as [x|] eqn:E.
  - now rewrite (nth_error_nth _ _ _ E).
  - apply nth_error_None in E. unfold len in H. lia.
Qed.

Lemma reads_getitem a i v : reads a i v = true -> getitem a i = Ok v.
Proof.
  unfold reads. destruct (getitem a i); try discriminate.
  now intros ->%Z.eqb_eq.
Qed.

(** Lists two elements at a time. *)
Lemma list_pair_ind {A} (P : list A -> Prop) :
  P [] -> (forall x, P [x]) -> (forall x y l, P l -> P (x :: y :: l)) ->
  forall l, P l.
Proof.
  intros H0 H1 H2.
  fix IH 1. intros [|x [|y l]]; [exact H0 | exact (H1 x) | exact (H2 x y l (IH l))].
Qed.

(** A concrete list of integers has no repetition. *)
Ltac nodup_list :=
  repeat (constructor; [simpl; intuition discriminate|]); constructor.

(** ** The traversal on the trees the arrays encode *)

Section Traversal.

Variables lc rs : list Z.

Lemma encodes_inv u c s :
  encodes lc rs (Node u c s) = true ->
  0 <= u /\ getitem lc u = Ok (first c) /\ getitem rs u = Ok (first s)
  /\ encodes lc rs c = true /\ encodes lc rs s = true.
Proof.
  simpl. rewrite !andb_true_iff.
  intros [[[[Hu Hl] Hr] Hc] Hs].
  repeat split; auto using reads_getitem. lia.
Qed.

Lemma first_not_NONE u c s :
  encodes lc rs (Node u c s) = true -> (u =? NONE) = false.
Proof.
  intros H. apply encodes_inv in H. apply Z.eqb_neq. unfold NONE. lia.
Qed.

(** The inner loop pushes the sibling chain, left to right. *)
Lemma push_children_roots f :
  encodes lc rs f = true ->
  forall fuel stack, (length (roots f) <= fuel)%nat ->
    push_children fuel rs (first f) stack = Ok (stack ++ roots f).
Proof.
  induction f as [|u c _ s IHs]; intros Henc fuel stack Hfuel.
  - destruct fuel; simpl; now rewrite app_nil_r.
  - pose proof (first_not_NONE _ _ _ Henc) as Hu.
    apply encodes_inv in Henc. destruct Henc as (_ & _ & Hr & _ & Hs).
    destruct fuel as [|fuel]; [simpl in Hfuel; lia|].
    simpl in *. rewrite Hu, Hr. simpl.
    rewrite IHs by (auto; lia). now rewrite <- app_assoc.
Qed.

Lemma roots_le_ids f : (length (roots f) <= length (ids f))%nat.
Proof.
  induction f as [|u c _ s IHs]; simpl; [lia|].
  rewrite length_app. lia.
Qed.

Lemma visit_node u c fuel stack sample_node :
  getitem lc u = Ok (first c) ->
  encodes lc rs c = true ->
  (length (roots c) <= fuel)%nat ->
  visit fuel lc rs u stack sample_node
  = Ok (stack ++ roots c, sample_node ++ own_leaf c).
Proof.
  intros Hl Hc Hfuel. unfold visit. rewrite Hl. cbn [bind].
  destruct c as [|v c' s'].
  - cbn. now rewrite app_nil_r.
  - cbn [first]. rewrite (first_not_NONE _ _ _ Hc). cbn [negb].
    rewrite (push_children_roots _ Hc) by assumption.
    cbn. now rewrite app_nil_r.
Qed.

Lemma own_leaf_leaves u c :
  own_leaf c ++ repeat NONE (length (leaves c))
  = repeat NONE (length (leaves_of u (leaves c) c)).
Proof. destruct c; reflexivity. Qed.

(** With the roots of [f] on top of the stack, one iteration per node of
    [f] takes them off again and records one [NONE] per leaf of [f]. *)
Lemma traverse_forest f :
  encodes lc rs f = true ->
  forall n stack sample_node,
    traverse (length (ids f) + n) lc rs (stack ++ roots f) sample_node
    = traverse n lc rs stack (sample_node ++ repeat NONE (length (leaves f))).
Proof.
  induction f as [|u c IHc s IHs]; intros Henc n stack sample_node.
  - simpl. now rewrite !app_nil_r.
  - apply encodes_inv in Henc. destruct Henc as (_ & Hl & _ & Hc & Hs).
    cbn [ids roots leaves length].
    replace (stack ++ u :: roots s) with ((stack ++ [u]) ++ roots s)
      by now rewrite <- app_assoc.
    rewrite length_app.
    replace (S (length (ids c) + length (ids s)) + n)%nat
      with (length (ids s) + S (length (ids c) + n))%nat by lia.
    rewrite IHs by assumption.
    cbn [traverse]. rewrite pop_snoc.
    rewrite (visit_node u c) by (auto; pose proof (roots_le_ids c); lia).
    cbn [bind fst snd]. rewrite IHc by assumption.
    f_equal. rewrite <- !app_assoc. f_equal.
    rewrite length_app, Nat.add_comm, repeat_app.
    now rewrite (own_leaf_leaves u).
Qed.

Lemma visited_forest f :
  encodes lc rs f = true ->
  forall n stack sample_node,
    visited (length (ids f) + n) lc rs (stack ++ roots f) sample_node
    = visit_order f
      ++ visited n lc rs stack (sample_node ++ repeat NONE (length (leaves f))).
Proof.
  induction f as [|u c IHc s IHs]; intros Henc n stack sample_node.
  - simpl. now rewrite !app_nil_r.
  - apply encodes_inv in Henc. destruct Henc as (_ & Hl & _ & Hc & Hs).
    cbn [ids roots leaves length visit_order].
    replace (stack ++ u :: roots s) with ((stack ++ [u]) ++ roots s)
      by now rewrite <- app_assoc.
    rewrite length_app.
    replace (S (length (ids c) + length (ids s)) + n)%nat
      with (length (ids s) + S (length (ids c) + n))%nat by lia.
    rewrite IHs by assumption.
    cbn [visited]. rewrite pop_snoc.
    rewrite (visit_node u c) by (auto; pose proof (roots_le_ids c); lia).
    cbn [fst snd]. rewrite IHc by assumption.
    rewrite <- (app_assoc (visit_order s)). cbn [app]. do 4 f_equal.
    rewrite <- !app_assoc. f_equal.
    rewrite length_app, Nat.add_comm, repeat_app.
    now rewrite (own_leaf_leaves u).
Qed.

Lemma visit_order_ids f : Permutation (visit_order f) (ids f).
Proof.
  induction f as [|u c IHc s IHs]; simpl; [constructor|].
  rewrite <- Permutation_middle. constructor.
  rewrite Permutation_app_comm. now apply Permutation_app.
Qed.

(** On an encoded tree the enumerator returns with one [NONE] per leaf
    under the root, having popped the root and then the nodes below it. *)
Lemma traverse_tree root kids :
  encodes_tree lc rs root kids = true ->
  forall n,
    obtain_sample_nodes (S (length (ids kids)) + n) root lc rs
    = Ok (repeat NONE (length (leaves_of root (leaves kids) kids)))
    /\ visited (S (length (ids kids)) + n) lc rs [root] []
       = root :: visit_order kids.
Proof.
  unfold encodes_tree. rewrite !andb_true_iff. intros [[_ Hl] Hk] n.
  apply reads_getitem in Hl.
  unfold obtain_sample_nodes. change [root] with ([] ++ [root]).
  cbn [plus traverse visited]. rewrite pop_snoc.
  rewrite (visit_node root kids) by (auto; pose proof (roots_le_ids kids); lia).
  cbn [bind fst snd]. split.
  - rewrite traverse_forest by assumption.
    destruct n; cbn [traverse]; rewrite pop_nil; cbn [app];
      now rewrite (own_leaf_leaves root).
  - rewrite visited_forest by assumption.
    destruct n; cbn [visited]; rewrite pop_nil; now rewrite app_nil_r.
Qed.

End Traversal.

(** ** The traversal on arbitrary arrays *)

Lemma push_children_extends fuel rs child stack stack' :
  push_children fuel rs child stack = Ok stack' ->
  exists more, stack' = stack ++ more /\ ((child =? NONE) = false -> more <> []).
Proof.
  revert child stack. induction fuel as [|fuel IH]; intros child stack; simpl;
    destruct (child =? NONE) eqn:E; try discriminate.
  - intros [= <-]. exists []. rewrite app_nil_r. split; [reflexivity|discriminate].
  - intros [= <-]. exists []. rewrite app_nil_r. split; [reflexivity|discriminate].
  - intros H. inv_bind H next Hn.
    apply IH in H. destruct H as (more & -> & _).
    exists (child :: more). rewrite <- app_assoc. split; [reflexivity|discriminate].
Qed.

(** Whatever the arrays hold, a traversal that returns has only appended
    [NONE]s, and at least one if the stack was not empty. *)
Lemma traverse_output fuel lc rs :
  forall stack sample_node l,
    traverse fuel lc rs stack sample_node = Ok l ->
    exists k, l = sample_node ++ repeat NONE k /\ (stack <> [] -> (0 < k)%nat).
Proof.
  induction fuel as [|fuel IH]; intros stack sample_node l; simpl;
    destruct (pop stack) as [[stack' u]|] eqn:Ep.
  - discriminate.
  - intros [= <-]. apply pop_None in Ep. exists 0%nat.
    rewrite app_nil_r. split; [reflexivity|congruence].
  - intros H. inv_bind H st Hv. destruct st as [st2 sn2].
    simpl in H. apply IH in H. destruct H as (k & -> & Hk).
    unfold visit in Hv. inv_bind Hv child Hc.
    destruct (child =? NONE) eqn:E; simpl in Hv.
    + injection Hv as <- <-. apply Z.eqb_eq in E. subst child.
      exists (S k). rewrite <- app_assoc. split; [reflexivity|lia].
    + inv_bind Hv st3 Hp. injection Hv as <- <-.
      apply push_children_extends in Hp. destruct Hp as (more & -> & Hm).
      exists k. split; [reflexivity|]. intros _. apply Hk.
      specialize (Hm E). destruct more; [congruence|].
      destruct stack'; discriminate.
  - intros [= <-]. apply pop_None in Ep. exists 0%nat.
    rewrite app_nil_r. split; [reflexivity|congruence].
Qed.

Lemma obtain_sample_nodes_output fuel root lc rs l :
  obtain_sample_nodes fuel root lc rs = Ok l ->
  exists k, l = repeat NONE (S k).
Proof.
  intros H. apply traverse_output in H. destruct H as (k & -> & Hk).
  destruct k as [|k]; [exfalso; assert (0 < 0)%nat by (apply Hk; discriminate); lia|].
  now exists k.
Qed.

(** *** Fuel

    A result other than [OutOfFuel] is the result for every larger fuel. *)

Lemma push_children_fuel fuel k rs :
  forall child stack r,
    push_children fuel rs child stack = r -> r <> OutOfFuel ->
    push_children (fuel + k) rs child stack = r.
Proof.
  induction fuel as [|fuel IH]; intros child stack r; simpl;
    destruct (child =? NONE) eqn:E; intros <- Hr; try congruence.
  - destruct k; simpl; now rewrite E.
  - destruct (getitem rs child) as [next|e|]; simpl in *; auto.
Qed.

Lemma visit_fuel fuel k lc rs u stack sample_node r :
  visit fuel lc rs u stack sample_node = r -> r <> OutOfFuel ->
  visit (fuel + k) lc rs u stack sample_node = r.
Proof.
  unfold visit. destruct (getitem lc u) as [child|e|]; simpl; auto.
  destruct (child =? NONE); simpl; auto.
  destruct (push_children fuel rs child stack) as [st|e|] eqn:E;
    simpl; intros <- Hr; try congruence;
    rewrite (push_children_fuel fuel k rs child stack _ E); simpl; congruence.
Qed.

Lemma traverse_fuel fuel k lc rs :
  forall stack sample_node r,
    traverse fuel lc rs stack sample_node = r -> r <> OutOfFuel ->
    traverse (fuel + k) lc rs stack sample_node = r.
Proof.
  induction fuel as [|fuel IH]; intros stack sample_node r; simpl;
    destruct (pop stack) as [[stack' u]|] eqn:Ep; intros <- Hr; try congruence.
  - destruct k; simpl; now rewrite Ep.
  - destruct (visit fuel lc rs u stack' sample_node) as [st|e|] eqn:E;
      simpl in *; try congruence;
      rewrite (visit_fuel fuel k lc rs u stack' sample_node _ E); simpl;
      try congruence.
    now apply IH.
Qed.

Lemma obtain_sample_nodes_fuel fuel k root lc rs r :
  obtain_sample_nodes fuel root lc rs = r -> r <> OutOfFuel ->
  obtain_sample_nodes (fuel + k) root lc rs = r.
Proof. apply traverse_fuel. Qed.

(** ** The subtree sample enumerator *)

(** C1. The enumerator is to return the leaves under the root, the root
    itself when it is a leaf.  On [example_tree], which holds the tree
    ((0,1)3,2)4, it returns [-1] for the leaf 2, whose subtree has the one
    leaf 2, and three times [-1] for the root 4, whose subtree has the leaves
    0, 1 and 2: line 144 appends [child], which is [-1] there, and the node
    in hand is [parent]. *)
Theorem obtain_sample_nodes_appends_child :
  encodes_tree (left_child_array example_tree) (right_sib_array example_tree)
    2 Empty = true
  /\ leaves_of 2 (leaves Empty) Empty = [2]
  /\ obtain_sample_nodes 1 2
       (left_child_array example_tree) (right_sib_array example_tree)
     = Ok [-1]
  /\ encodes_tree (left_child_array example_tree) (right_sib_array example_tree)
       4 example_kids = true
  /\ leaves_of 4 (leaves example_kids) example_kids = [0; 1; 2]
  /\ obtain_sample_nodes 5 4
       (left_child_array example_tree) (right_sib_array example_tree)
     = Ok [-1; -1; -1].
Proof. repeat split; reflexivity. Qed.

(** C8. When the arrays encode a tree under [root] (a finite forest of
    children, so no node is reachable from itself) and no node id occurs
    twice in it (no shared children), the enumerator returns for every
    fuel above the number of nodes below the root, and the nodes it pops
    are the nodes of the tree, each once. *)
Theorem obtain_sample_nodes_terminates lc rs root kids fuel :
  encodes_tree lc rs root kids = true ->
  NoDup (root :: ids kids) ->
  (length (ids kids) < fuel)%nat ->
  (exists l, obtain_sample_nodes fuel root lc rs = Ok l)
  /\ NoDup (visited fuel lc rs [root] [])
  /\ Permutation (visited fuel lc rs [root] []) (root :: ids kids).
Proof.
  intros Henc Hnd Hfuel.
  replace fuel with (S (length (ids kids)) + (fuel - S (length (ids kids))))%nat
    by lia.
  destruct (traverse_tree lc rs root kids Henc
              (fuel - S (length (ids kids)))) as [Ht Hv].
  rewrite Ht, Hv.
  assert (Hp : Permutation (root :: visit_order kids) (root :: ids kids))
    by (constructor; apply visit_order_ids).
  split; [eauto|]. split; [|exact Hp].
  apply Permutation_NoDup with (1 := Permutation_sym Hp). exact Hnd.
Qed.

Lemma obtain_sample_nodes_terminates_example :
  (exists l, obtain_sample_nodes 5 4
               (left_child_array example_tree) (right_sib_array example_tree)
             = Ok l)
  /\ NoDup (visited 5 (left_child_array example_tree)
              (right_sib_array example_tree) [4] [])
  /\ Permutation
       (visited 5 (left_child_array example_tree)
          (right_sib_array example_tree) [4] [])
       (4 :: ids example_kids).
Proof.
  apply (obtain_sample_nodes_terminates
           (left_child_array example_tree) (right_sib_array example_tree)
           4 example_kids 5).
  - reflexivity.
  - nodup_list.
  - simpl. lia.
Defined.

(** ** [remove_list] *)

Lemma list_remove_count l x l' :
  list_remove l x = Ok l' ->
  forall y, count_occ Z.eq_dec l y
            = ((if Z.eq_dec x y then 1 else 0) + count_occ Z.eq_dec l' y)%nat.
Proof.
  revert l'. induction l as [|z l IH]; intros l'; simpl; [discriminate|].
  destruct (z =? x) eqn:E.
  - intros [= <-] y. apply Z.eqb_eq in E. subst z.
    destruct (Z.eq_dec x y); reflexivity.
  - intros H y. inv_bind H r' Hr. injection H as <-.
    apply Z.eqb_neq in E. simpl. rewrite (IH _ Hr y).
    destruct (Z.eq_dec z y), (Z.eq_dec x y); subst; try lia.
Qed.

Lemma list_remove_absent l x : ~ In x l -> list_remove l x = Raise ValueError.
Proof.
  induction l as [|z l IH]; simpl; [reflexivity|]. intros H.
  destruct (z =? x) eqn:E.
  - apply Z.eqb_eq in E. tauto.
  - rewrite IH by tauto. reflexivity.
Qed.

Lemma list_remove_present l x : In x l -> exists l', list_remove l x = Ok l'.
Proof.
  induction l as [|z l IH]; simpl; [tauto|]. intros H.
  destruct (z =? x) eqn:E; [eauto|].
  apply Z.eqb_neq in E. destruct H as [H|H]; [congruence|].
  destruct (IH H) as (l' & ->). simpl. eauto.
Qed.

Lemma list_remove_cases l x :
  (In x l /\ exists l', list_remove l x = Ok l')
  \/ (~ In x l /\ list_remove l x = Raise ValueError).
Proof.
  destruct (in_dec Z.eq_dec x l) as [H|H].
  - left. split; [assumption|]. now apply list_remove_present.
  - right. split; [assumption|]. now apply list_remove_absent.
Qed.

Lemma remove_list_app s pre post :
  remove_list s (pre ++ post)
  = bind (remove_list s pre) (fun cur => remove_list cur post).
Proof.
  revert s. induction pre as [|i pre IH]; intros s; simpl; [reflexivity|].
  destruct (list_remove s i); simpl; auto.
Qed.

Lemma remove_list_from_nil k :
  remove_list [] (repeat NONE (S k)) = Raise ValueError.
Proof. reflexivity. Qed.

(** C9. [remove_list] takes one occurrence out of [sample_nodes] for every
    entry of [remove_nodes]: when it returns, each value occurs in
    [sample_nodes] as often as in [remove_nodes] and in the result
    together.  It raises, and then [ValueError], exactly when the entry
    whose turn it is does not occur in what is left of [sample_nodes]. *)
Theorem remove_list_spec (sample_nodes remove_nodes : list Z) :
  match remove_list sample_nodes remove_nodes with
  | Ok rest =>
      forall x, count_occ Z.eq_dec sample_nodes x
                = (count_occ Z.eq_dec remove_nodes x + count_occ Z.eq_dec rest x)%nat
  | Raise e =>
      e = ValueError /\
      exists pre i post cur,
        remove_nodes = pre ++ i :: post /\ remove_list sample_nodes pre = Ok cur
        /\ ~ In i cur
  | OutOfFuel => False
  end
  /\ (forall pre i post cur,
        remove_nodes = pre ++ i :: post -> remove_list sample_nodes pre = Ok cur ->
        ~ In i cur -> remove_list sample_nodes remove_nodes = Raise ValueError).
Proof.
  split.
  - revert sample_nodes.
    induction remove_nodes as [|i rest IH]; intros s; simpl; [reflexivity|].
    destruct (list_remove_cases s i) as [(_ & s1 & E)|(Hn & E)]; rewrite E; simpl.
    + specialize (IH s1). pose proof (list_remove_count _ _ _ E) as Hc.
      destruct (remove_list s1 rest) as [s2|e|].
      * intros x. rewrite (Hc x), (IH x).
        destruct (Z.eq_dec i x); lia.
      * destruct IH as (-> & pre & j & post & cur & -> & Hp & Hj).
        split; [reflexivity|].
        exists (i :: pre), j, post, cur. simpl. rewrite E. simpl. auto.
      * assumption.
    + split; [reflexivity|]. exists [], i, rest, s. auto.
  - intros pre i post cur -> Hp Hn.
    rewrite remove_list_app, Hp. simpl.
    now rewrite (list_remove_absent _ _ Hn).
Qed.

(** ** The mutation allele resolver *)

Lemma insert_by_time_In m x l : In x (insert_by_time m l) <-> x = m \/ In x l.
Proof.
  induction l as [|y l IH]; simpl; [intuition auto|].
  destruct (Qltb (time m) (time y)); simpl; rewrite ?IH; intuition auto.
Qed.

Lemma sorted_by_time_reverse_In x l : In x (sorted_by_time_reverse l) <-> In x l.
Proof.
  induction l as [|m l IH]; simpl; [tauto|].
  rewrite insert_by_time_In, IH. intuition auto.
Qed.

(** Without a mutation to the causal allele the loop can only return the
    empty list: a removal would find nothing to remove. *)
Lemma resolve_without_allele_empty fuel ts tree a muts l :
  (forall m, In m muts -> derived_state m <> a) ->
  resolve fuel ts tree muts a [] = Ok l -> l = [].
Proof.
  induction muts as [|m rest IH]; intros Hd; simpl; [congruence|].
  assert (derived_state m <> a) as Hm by (apply Hd; now left).
  apply String.eqb_neq in Hm. rewrite Hm. intros H.
  inv_bind H p Hp.
  destruct (String.eqb (derived_state p) a).
  - inv_bind H rem Ho.
    apply obtain_sample_nodes_output in Ho. destruct Ho as (k & ->).
    rewrite remove_list_from_nil in H. discriminate.
  - apply IH; [|assumption]. intros m' Hin. apply Hd. now right.
Qed.

Lemma resolve_without_allele_ok fuel ts tree a muts sample_nodes :
  (forall m, In m muts -> derived_state m <> a) ->
  (forall m, In m muts ->
     exists p, mutation ts (parent m) = Ok p /\ derived_state p <> a) ->
  resolve fuel ts tree muts a sample_nodes = Ok sample_nodes.
Proof.
  induction muts as [|m rest IH]; intros Hd Hp; simpl; [reflexivity|].
  assert (derived_state m <> a) as Hm by (apply Hd; now left).
  apply String.eqb_neq in Hm. rewrite Hm.
  destruct (Hp m (or_introl eq_refl)) as (p & -> & Hpa).
  apply String.eqb_neq in Hpa. cbn [bind]. rewrite Hpa.
  apply IH; intros m' Hin; [apply Hd | apply Hp]; now right.
Qed.

Lemma resolve_fuel fuel k ts tree a muts :
  forall sample_nodes r,
    resolve fuel ts tree muts a sample_nodes = r -> r <> OutOfFuel ->
    resolve (fuel + k) ts tree muts a sample_nodes = r.
Proof.
  induction muts as [|m rest IH]; intros sample_nodes r; simpl; [auto|].
  destruct (String.eqb (derived_state m) a).
  - destruct (obtain_sample_nodes fuel (node m) (left_child_array tree)
                (right_sib_array tree)) as [keep|e|] eqn:E;
      simpl; intros <- Hr; try congruence;
      rewrite (obtain_sample_nodes_fuel fuel k _ _ _ _ E); simpl;
      try congruence.
    now apply IH.
  - destruct (mutation ts (parent m)) as [p|e|]; simpl; auto.
    destruct (String.eqb (derived_state p) a); [|apply IH].
    destruct (obtain_sample_nodes fuel (node m) (left_child_array tree)
                (right_sib_array tree)) as [rem|e|] eqn:E;
      simpl; intros <- Hr; try congruence;
      rewrite (obtain_sample_nodes_fuel fuel k _ _ _ _ E); simpl;
      try congruence.
    destruct (remove_list sample_nodes rem); simpl in *; auto.
Qed.

Lemma causal_mutation_sample_nodes_fuel fuel k ts tree s a r :
  causal_mutation_sample_nodes fuel ts tree s a = r -> r <> OutOfFuel ->
  causal_mutation_sample_nodes (fuel + k) ts tree s a = r.
Proof. apply resolve_fuel. Qed.

Lemma remove_list_repeat a b l :
  remove_list (repeat NONE a) (repeat NONE b) = Ok l -> l = repeat NONE (a - b).
Proof.
  revert a. induction b as [|b IH]; intros a; simpl.
  - intros [= <-]. now rewrite Nat.sub_0_r.
  - destruct a as [|a]; simpl; [discriminate|]. apply IH.
Qed.

(** Whatever the site, the list the resolver returns holds [NONE] and
    nothing else. *)
Lemma resolve_output fuel ts tree a muts :
  forall k l,
    resolve fuel ts tree muts a (repeat NONE k) = Ok l ->
    exists k', l = repeat NONE k'.
Proof.
  induction muts as [|m rest IH]; intros k l; simpl.
  - intros [= <-]. eauto.
  - destruct (String.eqb (derived_state m) a).
    + intros H. inv_bind H keep Ho.
      apply obtain_sample_nodes_output in Ho. destruct Ho as (j & ->).
      rewrite <- repeat_app in H. eauto.
    + intros H. inv_bind H p Hp.
      destruct (String.eqb (derived_state p) a); [|eauto].
      inv_bind H rem Ho. inv_bind H kept Hl.
      apply obtain_sample_nodes_output in Ho. destruct Ho as (j & ->).
      apply remove_list_repeat in Hl. subst kept. eauto.
Qed.

Lemma causal_mutation_sample_nodes_output fuel ts tree s a l :
  causal_mutation_sample_nodes fuel ts tree s a = Ok l ->
  exists k, l = repeat NONE k.
Proof. apply (resolve_output fuel ts tree a _ 0%nat). Qed.

(** C2. The back-mutation scenario on [example_tree]: ancestral state [A],
    a mutation to [B] above X = 4 and a mutation back to [A], with the first
    as its parent, above its child Y = 3.  The samples under X are 0, 1, 2
    and those under Y are 0, 1, so the carriers of [B] are to be the
    sample 2; the resolver returns [[-1]], the three [-1] the enumerator
    gives for X less the two it gives for Y. *)
Theorem back_mutation_carriers :
  encodes_tree (left_child_array example_tree) (right_sib_array example_tree)
    4 example_kids = true
  /\ leaves_of 4 (leaves example_kids) example_kids = [0; 1; 2]
  /\ encodes_tree (left_child_array example_tree) (right_sib_array example_tree)
       3 (Node 0 Empty (Node 1 Empty Empty)) = true
  /\ leaves_of 3 (leaves (Node 0 Empty (Node 1 Empty Empty)))
       (Node 0 Empty (Node 1 Empty Empty)) = [0; 1]
  /\ causal_mutation_sample_nodes 5 (ts_of back_mutations) example_tree
       (site_of back_mutations) "B"
     = Ok [-1].
Proof. repeat split; reflexivity. Qed.

(** C5, as the specification states it, fails: the resolver checks nothing
    about the causal allele.  [C] is neither the ancestral state nor a
    derived state of a site without mutations, nor of the site whose one
    mutation is to [B], and the resolver returns the empty list for both. *)
Lemma resolver_accepts_absent_allele :
  has_derived_state (site_of []) "C" = false
  /\ String.eqb (ancestral_state (site_of [])) "C" = false
  /\ causal_mutation_sample_nodes 5 (ts_of []) example_tree (site_of []) "C"
     = Ok []
  /\ has_derived_state (site_of founder_mutations) "C" = false
  /\ String.eqb (ancestral_state (site_of founder_mutations)) "C" = false
  /\ causal_mutation_sample_nodes 5 (ts_of founder_mutations) example_tree
       (site_of founder_mutations) "C"
     = Ok [].
Proof. repeat split; reflexivity. Qed.

(** C5, amended.  When no mutation of the site has the causal allele as its
    derived state, and the parent lookup of every mutation gives a mutation
    whose derived state is not the causal allele either, the resolver
    returns the empty list, whatever the ancestral state is: it does not
    fail. *)
Theorem resolver_without_causal_allele fuel ts tree s a :
  (forall m, In m (mutations s) -> derived_state m <> a) ->
  (forall m, In m (mutations s) ->
     exists p, mutation ts (parent m) = Ok p /\ derived_state p <> a) ->
  causal_mutation_sample_nodes fuel ts tree s a = Ok [].
Proof.
  intros Hd Hp. unfold causal_mutation_sample_nodes.
  apply resolve_without_allele_ok; intros m Hin;
    apply (proj1 (sorted_by_time_reverse_In _ _)) in Hin.
  - now apply Hd.
  - now apply Hp.
Qed.

Lemma resolver_without_causal_allele_example :
  causal_mutation_sample_nodes 5 (ts_of back_mutations) example_tree
    (site_of back_mutations) "C"
  = Ok [].
Proof.
  apply resolver_without_causal_allele.
  - intros m [<-|[<-|[]]]; discriminate.
  - intros m [<-|[<-|[]]]; eexists; (split; [reflexivity|discriminate]).
Defined.

(** ** The genetic value accumulator *)

Lemma true_div_Ok a b q :
  true_div a b = Ok q -> b <> 0 /\ q = (inject_Z a / inject_Z b)%Q.
Proof.
  unfold true_div. destruct (Z.eqb_spec b 0); [discriminate|].
  intros [= <-]. auto.
Qed.

Lemma Qdiv_nonneg a b : 0 <= a -> 0 < b -> (0 <= inject_Z a / inject_Z b)%Q.
Proof.
  intros Ha Hb. apply Qle_shift_div_l.
  - change 0%Q with (inject_Z 0). now rewrite <- Zlt_Qlt.
  - rewrite Qmult_0_l. change 0%Q with (inject_Z 0). now rewrite <- Zle_Qle.
Qed.

(** C4, as the specification states it, fails.  In [cancelled_mutations]
    the mutation to [B] above node 3 is undone on the same branch: a
    mutation has the causal allele as its derived state and yet no sample
    carries it, and the frequency is 0. *)
Lemma frequency_zero_with_causal_mutation :
  has_derived_state (site_of cancelled_mutations) "B" = true
  /\ site_frequency 5 (ts_of cancelled_mutations) [0] ["B"%string] 0 0
     = Ok ([], (inject_Z 0 / inject_Z 3)%Q)
  /\ (inject_Z 0 / inject_Z 3 == 0)%Q.
Proof. repeat split; reflexivity. Qed.

(** The upper bound of C4 fails as well, where a mutation to the causal
    allele lies under another one: the carriers are a list, the samples
    under node 3 are counted twice, and the frequency is 5/3. *)
Lemma frequency_above_one :
  site_frequency 5 (ts_of repeated_mutations) [0] ["B"%string] 0 0
  = Ok ([-1; -1; -1; -1; -1], (inject_Z 5 / inject_Z 3)%Q)
  /\ (1 < inject_Z 5 / inject_Z 3)%Q.
Proof. repeat split; reflexivity. Qed.

(** C4, amended.  The frequency a site's step records is never negative,
    and it is 0 whenever no mutation of the site has the causal allele as
    its derived state. *)
Theorem frequency_nonneg_and_zero fuel ts site_id causal_allele i loc
    tree sid s a carriers f :
  seek ts loc = Ok tree ->
  getitem site_id (Z.of_nat i) = Ok sid ->
  site ts sid = Ok s ->
  getitem causal_allele (Z.of_nat i) = Ok a ->
  site_frequency fuel ts site_id causal_allele i loc = Ok (carriers, f) ->
  (0 <= f)%Q
  /\ ((forall m, In m (mutations s) -> derived_state m <> a) -> (f == 0)%Q).
Proof.
  intros Ht Hi Hs Ha H. unfold site_frequency in H.
  rewrite Ht in H; cbn [bind] in H. rewrite Hi in H; cbn [bind] in H.
  rewrite Hs in H; cbn [bind] in H. rewrite Ha in H; cbn [bind] in H.
  inv_bind H c Hc. inv_bind H q Hq. injection H as <- <-.
  apply true_div_Ok in Hq. destruct Hq as [HN ->].
  split.
  - apply Qdiv_nonneg; [apply len_nonneg|].
    pose proof (len_nonneg (samples ts)). unfold num_samples in *. lia.
  - intros Hd. unfold causal_mutation_sample_nodes in Hc.
    apply resolve_without_allele_empty in Hc.
    + subst c. unfold Qdiv. apply Qmult_0_l.
    + intros m Hin. apply (proj1 (sorted_by_time_reverse_In _ _)) in Hin. auto.
Qed.

Lemma frequency_nonneg_and_zero_example :
  site_frequency 5 (ts_of back_mutations) [0] ["C"%string] 0 0
  = Ok ([], (inject_Z 0 / inject_Z 3)%Q)
  /\ (0 <= inject_Z 0 / inject_Z 3)%Q
  /\ (inject_Z 0 / inject_Z 3 == 0)%Q.
Proof.
  destruct (frequency_nonneg_and_zero 5 (ts_of back_mutations) [0]
              ["C"%string] 0 0 example_tree 0 (site_of back_mutations) "C"
              [] (inject_Z 0 / inject_Z 3)%Q
              eq_refl eq_refl eq_refl eq_refl eq_refl) as [Hle Hzero].
  split; [reflexivity|]. split; [exact Hle|].
  apply Hzero. intros m [<-|[<-|[]]]; discriminate.
Defined.

(** *** The accumulation step on distinct sample nodes *)

Lemma update_nth_length {A} (a : list A) j x :
  length (update_nth a j x) = length a.
Proof.
  revert j. induction a as [|y a IH]; intros [|j]; simpl; auto.
Qed.



Lemma gather_in_range (G : list Q) idx :
  (forall i, In i idx -> 0 <= i < len G) ->
  mapM (getitem G) idx = Ok (map (fun i => nth (Z.to_nat i) G 0%Q) idx).
Proof.
  induction idx as [|i idx IH]; intros H; simpl; [reflexivity|].
  rewrite getitem_nonneg by (apply H; now left). cbn [bind].
  rewrite IH by (intros; apply H; now right). reflexivity.
Qed.



(** C3. The sum law on the site of [founder_mutations], whose mutation to
    [B] above the root is carried by the three samples.  The module as it
    stands raises [NameError] at the effect size, so no array is left to
    sum.  With [sim_beta] bound to a function that returns 2 the resolver's
    list is three times [-1], numpy adds 2 once to the last entry of the
    array, and its sum is 2 and not 2 * 3. *)
Theorem sum_law_on_founder_site :
  causal_mutation_sample_nodes 5 (ts_of founder_mutations) example_tree
    (site_of founder_mutations) "B"
  = Ok [-1; -1; -1]
  /\ node_genetic_value 5 (ts_of founder_mutations) [0] [0%Q] ["B"%string]
     = Raise NameError
  /\ node_genetic_value_with (Some (fun _ => 2%Q)) 5 (ts_of founder_mutations)
       [0] [0%Q] ["B"%string]
     = Ok {| acc_G := [0; 0; 2]%Q;
             acc_beta_list := [2%Q];
             acc_frequency := [(inject_Z 3 / inject_Z 3)%Q] |}
  /\ (sum_Q [0; 0; 2] == 2)%Q
  /\ ~ (sum_Q [0; 0; 2] == 2 * inject_Z 3)%Q.
Proof.
  repeat split; try reflexivity. intros H. discriminate H.
Qed.

(** C10, as stated, fails: the first site can fail before its effect size
    is asked for.  On [two_allele_mutations] with causal allele [T] the
    mutation to [G] comes first, its parent [-1] is looked up and found to
    be the last mutation of the table, the one to [T], and the removal
    from the still empty list raises [ValueError]; and without samples
    [np.max] raises [ValueError] before the loop. *)
Lemma node_genetic_value_other_error :
  node_genetic_value 5 (ts_of two_allele_mutations) [0] [0%Q] ["T"%string]
  = Raise ValueError
  /\ node_genetic_value 5 (example_ts [] back_mutations [site_of back_mutations])
       [0] [0%Q] ["B"%string]
     = Raise ValueError.
Proof. split; reflexivity. Qed.

(** C10, amended.  With at least one causal site [node_genetic_value]
    returns no result, and when the steps of the first site that come
    before the effect size succeed (the maximum of the samples, the array
    of zeros, the seek, the site, the resolver, the frequency) it raises
    [NameError]. *)
Theorem node_genetic_value_never_returns fuel ts site_id loc rest causal_allele :
  (forall r, node_genetic_value fuel ts site_id (loc :: rest) causal_allele <> Ok r)
  /\ (forall m G cf,
        np_max (samples ts) = Ok m -> np_zeros (m + 1) = Ok G ->
        site_frequency fuel ts site_id causal_allele 0 loc = Ok cf ->
        node_genetic_value fuel ts site_id (loc :: rest) causal_allele
        = Raise NameError).
Proof.
  unfold node_genetic_value, node_genetic_value_with. split.
  - intros r H.
    inv_bind H m Hm. inv_bind H G HG. cbn [sites_loop] in H.
    inv_bind H cf Hcf. inv_bind H fr Hfr.
    discriminate.
  - intros m G cf Hm HG Hcf. rewrite Hm; cbn [bind]. rewrite HG; cbn [bind].
    cbn [sites_loop]. rewrite Hcf. reflexivity.
Qed.

Lemma node_genetic_value_never_returns_example :
  (forall r, node_genetic_value 5 (ts_of back_mutations) [0] [0%Q; 1%Q]
               ["B"%string; "B"%string] <> Ok r)
  /\ node_genetic_value 5 (ts_of back_mutations) [0] [0%Q; 1%Q]
       ["B"%string; "B"%string]
     = Raise NameError.
Proof.
  destruct (node_genetic_value_never_returns 5 (ts_of back_mutations) [0]
              0%Q [1%Q] ["B"%string; "B"%string]) as [Hno Hname].
  split; [exact Hno|].
  eapply Hname; reflexivity.
Defined.

(** ** The node-to-individual reducer *)

Lemma slice2_cons {A} (y : A) l : slice2 (y :: l) = y :: slice2 (tl l).
Proof. destruct l; reflexivity. Qed.

Lemma slice2_length {A} (l : list A) :
  length (slice2 l) = Nat.div2 (S (length l))
  /\ length (slice2 (tl l)) = Nat.div2 (length l).
Proof.
  induction l as [| x | x y l [IH1 IH2]] using list_pair_ind;
    [split; reflexivity | split; reflexivity |].
  cbn [tl]. rewrite (slice2_cons y l). cbn [slice2 length].
  rewrite IH1, IH2. split; reflexivity.
Qed.

Lemma zip_add_slices (a : list Q) :
  zip_add (slice2 a) (slice2 (tl a)) = pair_sums a.
Proof.
  induction a as [| x | x y l IH] using list_pair_ind; try reflexivity.
  cbn [tl]. rewrite (slice2_cons y l). cbn [slice2 zip_add pair_sums].
  now rewrite IH.
Qed.

Lemma even_div2 n : Nat.even n = true -> Nat.div2 (S n) = Nat.div2 n.
Proof.
  intros H. apply Nat.even_spec in H. destruct H as [k ->].
  rewrite Nat.div2_succ_double, Nat.div2_double. reflexivity.
Qed.

Lemma odd_div2 n : Nat.odd n = true -> Nat.div2 (S n) = S (Nat.div2 n).
Proof.
  intros H. apply Nat.odd_spec in H. destruct H as [k ->].
  replace (S (2 * k + 1)) with (2 * (S k))%nat by lia.
  replace (2 * k + 1)%nat with (S (2 * k)) by lia.
  rewrite Nat.div2_succ_double, Nat.div2_double. reflexivity.
Qed.

Lemma pair_sums_nth (a : list Q) :
  length (pair_sums a) = Nat.div2 (length a)
  /\ forall i, (i < length (pair_sums a))%nat ->
       nth i (pair_sums a) 0%Q = (nth (2 * i) a 0 + nth (2 * i + 1) a 0)%Q.
Proof.
  induction a as [| x | x y l [IHl IHn]] using list_pair_ind.
  - split; [reflexivity|]. simpl. lia.
  - split; [reflexivity|]. simpl. lia.
  - split; [simpl; now rewrite IHl|].
    intros [|i] Hi; [reflexivity|].
    simpl in Hi. apply Nat.succ_lt_mono in Hi.
    replace (2 * S i)%nat with (S (S (2 * i))) by lia.
    cbn [pair_sums nth Nat.add]. now apply IHn.
Qed.

(** C6. [by_copy] is the value vector in genome-copy order, [G] read at
    the samples.  When its length is even the reducer returns one value
    per individual, half as many as there are copies, and the value of
    individual [i] is the sum of the entries [2i] and [2i+1]. *)
Theorem individual_genetic_pairs ts G by_copy :
  mapM (getitem G) (samples ts) = Ok by_copy ->
  Nat.even (length by_copy) = true ->
  individual_genetic ts G = Ok (pair_sums by_copy)
  /\ length (pair_sums by_copy) = Nat.div2 (length by_copy)
  /\ forall i, (i < length (pair_sums by_copy))%nat ->
       nth i (pair_sums by_copy) 0%Q
       = (nth (2 * i) by_copy 0 + nth (2 * i + 1) by_copy 0)%Q.
Proof.
  intros Hg Hev. split; [|apply pair_sums_nth].
  unfold individual_genetic. rewrite Hg. cbn [bind]. unfold np_add.
  destruct (slice2_length by_copy) as [-> ->].
  rewrite (even_div2 _ Hev), Nat.eqb_refl.
  now rewrite zip_add_slices.
Qed.

(** The vector [1, 3, 2, 4] of four copies reduces to [4, 6]. *)
Lemma individual_genetic_pairs_example :
  individual_genetic (example_ts [0; 1; 2; 3] [] []) [1; 3; 2; 4]%Q
  = Ok [4; 6]%Q.
Proof.
  exact (proj1 (individual_genetic_pairs (example_ts [0; 1; 2; 3] [] [])
                  [1; 3; 2; 4]%Q [1; 3; 2; 4]%Q eq_refl eq_refl)).
Defined.

(** C7, as the specification states it, fails: three copies [1, 2, 3] are
    reduced to [3, 5], the lone odd entry being broadcast over the two even
    ones, and a single copy is reduced to the empty vector. *)
Lemma individual_genetic_three_copies :
  Nat.odd (length [1; 2; 3]%Q) = true
  /\ individual_genetic (example_ts [0; 1; 2] [] []) [1; 2; 3]%Q = Ok [3; 5]%Q
  /\ individual_genetic (example_ts [0] [] []) [1]%Q = Ok [].
Proof. repeat split; reflexivity. Qed.

(** C7, amended.  With an odd number of copies that is at least 5 the
    reducer fails: the two slices differ in length, neither has length 1,
    and their sum raises [ValueError]. *)
Theorem individual_genetic_odd ts G by_copy :
  mapM (getitem G) (samples ts) = Ok by_copy ->
  Nat.odd (length by_copy) = true ->
  (5 <= length by_copy)%nat ->
  individual_genetic ts G = Raise ValueError.
Proof.
  intros Hg Hodd Hlen.
  unfold individual_genetic. rewrite Hg. cbn [bind]. unfold np_add.
  destruct (slice2_length by_copy) as [Ha Hb].
  rewrite (odd_div2 _ Hodd) in Ha.
  assert (2 <= Nat.div2 (length by_copy))%nat as Hk.
  { pose proof (Nat.div2_odd (length by_copy)) as E.
    rewrite Hodd in E. cbn [Nat.b2n] in E. lia. }
  rewrite Ha, Hb.
  destruct (Nat.eqb_spec (S (Nat.div2 (length by_copy))) (Nat.div2 (length by_copy)));
    [lia|].
  destruct (slice2 by_copy) as [|x [|x' a]]; simpl in Ha; try lia.
  destruct (slice2 (tl by_copy)) as [|y [|y' b]]; simpl in Hb; try lia.
  reflexivity.
Qed.

Lemma individual_genetic_odd_example :
  individual_genetic (example_ts [0; 1; 2; 3; 4] [] []) [1; 2; 3; 4; 5]%Q
  = Raise ValueError.
Proof.
  apply (individual_genetic_odd (example_ts [0; 1; 2; 3; 4] [] [])
           [1; 2; 3; 4; 5]%Q [1; 2; 3; 4; 5]%Q).
  - reflexivity.
  - reflexivity.
  - simpl. lia.
Defined.

(** * Properties of the rest of the module *)

(** ** Sequences *)

Lemma getitem_in_range {A} (a : list A) i d :
  0 <= i < len a -> getitem a i = Ok (nth (Z.to_nat i) a d).
Proof.
  intros H. unfold getitem. rewrite norm_index_nonneg by assumption.
  destruct (nth_error a (Z.to_nat i)) as [x|] eqn:E.
  - now rewrite (nth_error_nth _ _ _ E).
  - apply nth_error_None in E. unfold len in H. lia.
Qed.

Lemma setitem_in_range {A} (a : list A) i x :
  0 <= i < len a -> setitem a i x = Ok (update_nth a (Z.to_nat i) x).
Proof.
  intros H. unfold setitem. now rewrite norm_index_nonneg.
Qed.

Lemma update_nth_same {A} (a : list A) j x d :
  (j < length a)%nat -> nth j (update_nth a j x) d = x.
Proof.
  revert j. induction a as [|y a IH]; intros [|j] H; simpl in *; try lia.
  - reflexivity.
  - apply IH. lia.
Qed.

Lemma update_nth_diff {A} (a : list A) j k x d :
  j <> k -> nth k (update_nth a j x) d = nth k a d.
Proof.
  revert j k. induction a as [|y a IH]; intros [|j] [|k] H; simpl; auto.
  congruence.
Qed.

Lemma norm_index_length {A B} (a : list A) (b : list B) i :
  length a = length b -> norm_index a i = norm_index b i.
Proof. intros H. unfold norm_index, len. now rewrite H. Qed.



(** ** [obtain_sample_index_map] *)

Lemma index_loop_spec ids :
  NoDup ids ->
  forall j m,
    (forall u, In u ids -> 0 <= u < len m) ->
    exists m',
      index_loop j ids m = Ok m'
      /\ length m' = length m
      /\ (forall k u, nth_error ids k = Some u ->
            nth (Z.to_nat u) m' NONE = j + Z.of_nat k)
      /\ (forall x, 0 <= x -> ~ In x ids ->
            nth (Z.to_nat x) m' NONE = nth (Z.to_nat x) m NONE).
Proof.
  induction 1 as [|u ids Hni Hnd IH]; intros j m Hr.
  - exists m. repeat split; auto. intros [|k] u; discriminate.
  - cbn [index_loop].
    assert (0 <= u < len m) as Hu by (apply Hr; now left).
    rewrite (setitem_in_range m u j Hu). cbn [bind].
    destruct (IH (j + 1) (update_nth m (Z.to_nat u) j)) as (m' & E & Hl & Hs & Ho).
    { intros v Hv. unfold len. rewrite update_nth_length. apply Hr. now right. }
    rewrite update_nth_length in Hl.
    exists m'. split; [exact E|]. split; [exact Hl|]. split.
    + intros [|k] v Hk.
      * cbn in Hk. injection Hk as <-. rewrite Ho; [|lia|assumption].
        rewrite update_nth_same by (unfold len in Hu; lia). cbn. lia.
      * rewrite (Hs k v Hk). lia.
    + intros x Hx Hin. rewrite Ho by (auto; intros ?; apply Hin; now right).
      apply update_nth_diff. intros E'. apply Hin. left. lia.
Qed.

Lemma initial_map_length n :
  length (map (fun x => x - 1) (repeat 0 n)) = n.
Proof. now rewrite length_map, repeat_length. Qed.

Lemma initial_map_nth n k :
  (k < n)%nat -> nth k (map (fun x => x - 1) (repeat 0 n)) NONE = NONE.
Proof.
  intros H. rewrite (nth_indep _ NONE (0 - 1)) by now rewrite initial_map_length.
  change (0 - 1) with ((fun x => x - 1) 0). rewrite map_nth.
  now rewrite nth_repeat.
Qed.

(** X1. For distinct sample ids within [0, num_nodes] the map is built, has
    [num_nodes + 1] entries, and sends the [k]-th sample id back to [k]. *)
Theorem obtain_sample_index_map_samples num_nodes ids :
  NoDup ids ->
  (forall u, In u ids -> 0 <= u <= num_nodes) ->
  0 <= num_nodes + 1 ->
  exists m,
    obtain_sample_index_map num_nodes ids = Ok m
    /\ len m = num_nodes + 1
    /\ forall k u, nth_error ids k = Some u -> getitem m u = Ok (Z.of_nat k).
Proof.
  intros Hnd Hr Hn. unfold obtain_sample_index_map, np_zeros_int.
  destruct (Z.ltb_spec (num_nodes + 1) 0); [lia|]. cbn [bind].
  set (m0 := map (fun x => x - 1) (repeat 0 (Z.to_nat (num_nodes + 1)))).
  assert (len m0 = num_nodes + 1) as Hl0
    by (unfold len, m0; rewrite initial_map_length; lia).
  destruct (index_loop_spec ids Hnd 0 m0) as (m & E & Hl & Hs & _).
  { intros u Hu. specialize (Hr u Hu). lia. }
  exists m. split; [exact E|].
  assert (len m = num_nodes + 1) as Hlm by (unfold len in *; lia).
  split; [exact Hlm|].
  intros k u Hk.
  assert (In u ids) as Hin by (eapply nth_error_In; eauto).
  specialize (Hr u Hin).
  rewrite (getitem_in_range m u NONE) by lia.
  now rewrite (Hs k u Hk).
Qed.

Lemma obtain_sample_index_map_samples_example :
  exists m,
    obtain_sample_index_map 5 [0; 1; 2] = Ok m
    /\ len m = 5 + 1
    /\ forall k u, nth_error [0; 1; 2] k = Some u -> getitem m u = Ok (Z.of_nat k).
Proof.
  apply obtain_sample_index_map_samples.
  - nodup_list.
  - intros u [<-|[<-|[<-|[]]]]; lia.
  - lia.
Defined.

(** X2. Under the same conditions every node within [0, num_nodes] that is
    not a sample is sent to [-1]. *)
Theorem obtain_sample_index_map_others num_nodes ids m x :
  NoDup ids ->
  (forall u, In u ids -> 0 <= u <= num_nodes) ->
  obtain_sample_index_map num_nodes ids = Ok m ->
  0 <= x <= num_nodes -> ~ In x ids ->
  getitem m x = Ok NONE.
Proof.
  intros Hnd Hr E Hx Hin. unfold obtain_sample_index_map, np_zeros_int in E.
  destruct (Z.ltb_spec (num_nodes + 1) 0); [discriminate|]. cbn [bind] in E.
  set (m0 := map (fun x => x - 1) (repeat 0 (Z.to_nat (num_nodes + 1)))) in E.
  assert (len m0 = num_nodes + 1) as Hl0
    by (unfold len, m0; rewrite initial_map_length; lia).
  destruct (index_loop_spec ids Hnd 0 m0) as (m' & E' & Hl & _ & Ho).
  { intros u Hu. specialize (Hr u Hu). lia. }
  rewrite E' in E. injection E as <-.
  rewrite (getitem_in_range m' x NONE) by (unfold len in *; lia).
  rewrite Ho by (auto; lia).
  unfold m0. rewrite initial_map_nth by lia. reflexivity.
Qed.

Lemma obtain_sample_index_map_others_example :
  obtain_sample_index_map 5 [0; 1; 2] = Ok [0; 1; 2; -1; -1; -1]
  /\ getitem [0; 1; 2; -1; -1; -1] 4 = Ok NONE.
Proof.
  split; [reflexivity|].
  apply (obtain_sample_index_map_others 5 [0; 1; 2]).
  - nodup_list.
  - intros u [<-|[<-|[<-|[]]]]; lia.
  - reflexivity.
  - lia.
  - intros [H|[H|[H|[]]]]; discriminate.
Defined.




(** ** More on the subtree sample enumerator *)

Lemma repeat_Forall {A} (x : A) n : Forall (fun y => y = x) (repeat x n).
Proof. apply Forall_forall. intros y Hy. now apply repeat_spec in Hy. Qed.

(** X4. Whatever the arrays hold, a list the enumerator returns is not
    empty and every entry of it is [-1]. *)
Theorem obtain_sample_nodes_only_NONE fuel root lc rs l :
  obtain_sample_nodes fuel root lc rs = Ok l ->
  l <> [] /\ Forall (fun x => x = NONE) l.
Proof.
  intros H. apply obtain_sample_nodes_output in H. destruct H as (k & ->).
  split; [discriminate|apply repeat_Forall].
Qed.

Lemma obtain_sample_nodes_only_NONE_example :
  obtain_sample_nodes 5 4
    (left_child_array example_tree) (right_sib_array example_tree)
  = Ok [-1; -1; -1]
  /\ [-1; -1; -1] <> [] /\ Forall (fun x => x = NONE) [-1; -1; -1].
Proof.
  split; [reflexivity|].
  apply (obtain_sample_nodes_only_NONE 5 4
           (left_child_array example_tree) (right_sib_array example_tree)).
  reflexivity.
Defined.

(** X5. On arrays that encode a tree under [root] the enumerator returns,
    for every fuel above the number of nodes below the root, as many
    entries as the tree has leaves. *)
Theorem obtain_sample_nodes_counts_leaves lc rs root kids fuel :
  encodes_tree lc rs root kids = true ->
  (length (ids kids) < fuel)%nat ->
  exists l,
    obtain_sample_nodes fuel root lc rs = Ok l
    /\ length l = length (leaves_of root (leaves kids) kids).
Proof.
  intros Henc Hfuel.
  replace fuel with (S (length (ids kids)) + (fuel - S (length (ids kids))))%nat
    by lia.
  destruct (traverse_tree lc rs root kids Henc
              (fuel - S (length (ids kids)))) as [Ht _].
  eexists. split; [exact Ht|]. apply repeat_length.
Qed.

Lemma obtain_sample_nodes_counts_leaves_example :
  exists l,
    obtain_sample_nodes 5 4
      (left_child_array example_tree) (right_sib_array example_tree) = Ok l
    /\ length l = length (leaves_of 4 (leaves example_kids) example_kids).
Proof.
  apply obtain_sample_nodes_counts_leaves.
  - reflexivity.
  - simpl. lia.
Defined.

Lemma push_children_sibling_loop rs c :
  c <> NONE -> getitem rs c = Ok c ->
  forall fuel stack, push_children fuel rs c stack = OutOfFuel.
Proof.
  intros Hc Hr. induction fuel as [|fuel IH]; intros stack; simpl;
    destruct (Z.eqb_spec c NONE); try contradiction; [reflexivity|].
  rewrite Hr. simpl. apply IH.
Qed.

Lemma traverse_child_loop lc rs u :
  u <> NONE -> getitem lc u = Ok u -> getitem rs u = Ok NONE ->
  forall fuel sample_node, traverse fuel lc rs [u] sample_node = OutOfFuel.
Proof.
  intros Hu Hl Hr. induction fuel as [|fuel IH]; intros sample_node;
    [reflexivity|].
  change [u] with ([] ++ [u]). cbn [traverse]. rewrite pop_snoc.
  unfold visit. rewrite Hl. cbn [bind].
  destruct (Z.eqb_spec u NONE); [contradiction|]. cbn [negb].
  destruct fuel as [|fuel]; simpl.
  - destruct (Z.eqb_spec u NONE); [contradiction|reflexivity].
  - destruct (Z.eqb_spec u NONE); [contradiction|].
    rewrite Hr. simpl. destruct fuel; apply (IH sample_node).
Qed.

(** X6. The enumerator does not detect cycles: when the first child of the
    root is its own right sibling, or the root is its own only child, no
    amount of fuel lets it return. *)
Theorem obtain_sample_nodes_cycle fuel root lc rs :
  (exists c, getitem lc root = Ok c /\ c <> NONE /\ getitem rs c = Ok c)
  \/ (root <> NONE /\ getitem lc root = Ok root /\ getitem rs root = Ok NONE) ->
  obtain_sample_nodes fuel root lc rs = OutOfFuel.
Proof.
  intros [(c & Hl & Hc & Hr)|(Hu & Hl & Hr)]; unfold obtain_sample_nodes.
  - destruct fuel as [|fuel]; [reflexivity|].
    change [root] with ([] ++ [root]). cbn [traverse]. rewrite pop_snoc.
    unfold visit. rewrite Hl. cbn [bind].
    destruct (Z.eqb_spec c NONE); [contradiction|]. cbn [negb].
    now rewrite push_children_sibling_loop.
  - now apply traverse_child_loop.
Qed.

(** Node 0 has the child 1, and 1 is its own right sibling. *)
Lemma obtain_sample_nodes_cycle_example :
  obtain_sample_nodes 100 0 [1; -1] [-1; 1] = OutOfFuel.
Proof.
  apply obtain_sample_nodes_cycle. left. exists 1.
  split; [reflexivity|]. split; [discriminate|reflexivity].
Defined.

(** ** More on [remove_list] *)

Lemma remove_list_count s r s' :
  remove_list s r = Ok s' ->
  forall x, count_occ Z.eq_dec s x
            = (count_occ Z.eq_dec r x + count_occ Z.eq_dec s' x)%nat.
Proof.
  revert s. induction r as [|i r IH]; intros s; simpl.
  - intros [= <-] x. reflexivity.
  - intros H x. inv_bind H s1 E.
    rewrite (list_remove_count _ _ _ E x), (IH _ H x).
    destruct (Z.eq_dec i x); lia.
Qed.

Lemma remove_list_enough s r :
  (forall x, count_occ Z.eq_dec r x <= count_occ Z.eq_dec s x)%nat ->
  exists s', remove_list s r = Ok s'.
Proof.
  revert s. induction r as [|i r IH]; intros s Hc; simpl; [eauto|].
  assert (In i s) as Hin.
  { apply (count_occ_In Z.eq_dec). specialize (Hc i). simpl in Hc.
    destruct (Z.eq_dec i i); [lia|contradiction]. }
  destruct (list_remove_present s i Hin) as (s1 & E). rewrite E. cbn [bind].
  apply IH. intros x. specialize (Hc x).
  pose proof (list_remove_count _ _ _ E x) as Hx. simpl in Hc.
  destruct (Z.eq_dec i x); lia.
Qed.

(** X7. Taking out the nodes that were appended last restores the list up
    to order: the removal succeeds and what it leaves is a permutation of
    the list before the append. *)
Theorem remove_list_after_append (s r : list Z) :
  exists s', remove_list (s ++ r) r = Ok s' /\ Permutation s' s.
Proof.
  destruct (remove_list_enough (s ++ r) r) as (s' & E).
  { intros x. rewrite count_occ_app. lia. }
  exists s'. split; [exact E|].
  apply (Permutation_count_occ Z.eq_dec). intros x.
  pose proof (remove_list_count _ _ _ E x) as Hx.
  rewrite count_occ_app in Hx. lia.
Qed.

(** ** More on the resolver *)

(** X8. Whatever the site and the tree, every entry of a list the resolver
    returns is [-1]: no sample node id ever reaches its caller. *)
Theorem causal_mutation_sample_nodes_only_NONE fuel ts tree s a l :
  causal_mutation_sample_nodes fuel ts tree s a = Ok l ->
  Forall (fun x => x = NONE) l.
Proof.
  intros H. apply causal_mutation_sample_nodes_output in H.
  destruct H as (k & ->). apply repeat_Forall.
Qed.

Lemma causal_mutation_sample_nodes_only_NONE_example :
  causal_mutation_sample_nodes 5 (ts_of back_mutations) example_tree
    (site_of back_mutations) "B"
  = Ok [-1]
  /\ Forall (fun x => x = NONE) [-1].
Proof.
  split; [reflexivity|].
  apply (causal_mutation_sample_nodes_only_NONE 5 (ts_of back_mutations)
           example_tree (site_of back_mutations) "B").
  reflexivity.
Defined.

Section Subtrees.

Variables lc rs : list Z.

Lemma children_of_encodes y f k :
  encodes lc rs f = true -> children_of y f = Some k ->
  encodes_tree lc rs y k = true
  /\ (length (ids k) < length (ids f))%nat
  /\ (length (leaves_of y (leaves k) k) <= length (leaves f))%nat.
Proof.
  induction f as [|u c IHc s IHs]; intros Henc; simpl; [discriminate|].
  pose proof Henc as Henc'. apply encodes_inv in Henc'.
  destruct Henc' as (Hu & Hl & _ & Hc & Hs).
  rewrite !length_app.
  destruct (Z.eqb_spec u y) as [->|Hne].
  - intros [= <-]. split; [|split; lia].
    unfold encodes_tree, reads. rewrite Hl, Z.eqb_refl, Hc.
    destruct (Z.leb_spec 0 y); [reflexivity|lia].
  - destruct (children_of y c) as [k'|] eqn:E.
    + intros [= <-]. destruct (IHc Hc eq_refl) as (H1 & H2 & H3).
      split; [exact H1|]. split; [lia|].
      destruct c; [discriminate|]. cbn [leaves_of]. lia.
    + intros H. destruct (IHs Hs H) as (H1 & H2 & H3).
      split; [exact H1|]. split; lia.
Qed.

End Subtrees.

Lemma remove_list_repeat_le a b :
  (b <= a)%nat ->
  remove_list (repeat NONE a) (repeat NONE b) = Ok (repeat NONE (a - b)).
Proof.
  revert a. induction b as [|b IH]; intros a H; simpl.
  - now rewrite Nat.sub_0_r.
  - destruct a as [|a]; [lia|]. simpl. apply IH. lia.
Qed.

Lemma sorted_pair_older_first m_old m_new muts :
  (time m_new < time m_old)%Q ->
  muts = [m_old; m_new] \/ muts = [m_new; m_old] ->
  sorted_by_time_reverse muts = [m_old; m_new].
Proof.
  intros Ht [-> | ->]; cbn; unfold Qltb.
  - destruct (Qle_bool (time m_new) (time m_old)) eqn:E; [reflexivity|].
    apply Qlt_le_weak, Qle_bool_iff in Ht. congruence.
  - destruct (Qle_bool (time m_old) (time m_new)) eqn:E; [|reflexivity].
    apply Qle_bool_iff in E. exfalso. eapply Qlt_not_le; eauto.
Qed.

Lemma obtain_sample_nodes_tree lc rs root kids fuel :
  encodes_tree lc rs root kids = true ->
  (length (ids kids) < fuel)%nat ->
  obtain_sample_nodes fuel root lc rs
  = Ok (repeat NONE (length (leaves_of root (leaves kids) kids))).
Proof.
  intros Henc Hfuel.
  replace fuel with (S (length (ids kids)) + (fuel - S (length (ids kids))))%nat
    by lia.
  apply (traverse_tree lc rs root kids Henc).
Qed.

(** X9. The back-mutation scenario on any encoded tree: the causal allele
    arises above X, and above a node Y below X a younger mutation, whose
    parent lookup gives a mutation to the causal allele, leaves it.  In
    whichever order the site lists the two, the resolver returns as many
    entries as there are leaves under X and not under Y. *)
Theorem back_mutation_count fuel ts tree s a mX mY p kidsX kidsY :
  encodes_tree (left_child_array tree) (right_sib_array tree)
    (node mX) kidsX = true ->
  children_of (node mY) kidsX = Some kidsY ->
  (length (ids kidsX) < fuel)%nat ->
  mutations s = [mX; mY] \/ mutations s = [mY; mX] ->
  (time mY < time mX)%Q ->
  derived_state mX = a -> derived_state mY <> a ->
  mutation ts (parent mY) = Ok p -> derived_state p = a ->
  causal_mutation_sample_nodes fuel ts tree s a
  = Ok (repeat NONE
          (length (leaves_of (node mX) (leaves kidsX) kidsX)
           - length (leaves_of (node mY) (leaves kidsY) kidsY))).
Proof.
  intros HX HY Hfuel Hm Ht HdX HdY Hp Hdp.
  pose proof HX as HX'. unfold encodes_tree in HX'.
  rewrite !andb_true_iff in HX'. destruct HX' as [_ HkX].
  destruct (children_of_encodes _ _ _ _ _ HkX HY) as (HYenc & Hsize & Hle).
  unfold causal_mutation_sample_nodes.
  rewrite (sorted_pair_older_first mX mY _ Ht Hm).
  cbn [resolve]. apply String.eqb_eq in HdX. rewrite HdX.
  rewrite (obtain_sample_nodes_tree _ _ _ _ _ HX Hfuel). cbn [bind app].
  apply String.eqb_neq in HdY. rewrite HdY, Hp. cbn [bind].
  apply String.eqb_eq in Hdp. rewrite Hdp.
  rewrite (obtain_sample_nodes_tree _ _ _ _ _ HYenc) by lia. cbn [bind].
  rewrite remove_list_repeat_le; [reflexivity|].
  destruct kidsX; [discriminate|]. cbn [leaves_of]. exact Hle.
Qed.

Lemma back_mutation_count_example :
  causal_mutation_sample_nodes 5 (ts_of back_mutations) example_tree
    (site_of back_mutations) "B"
  = Ok (repeat NONE (3 - 2)).
Proof.
  apply (back_mutation_count 5 (ts_of back_mutations) example_tree
           (site_of back_mutations) "B"
           (mutation_at 4 "B" 2 (-1)) (mutation_at 3 "A" 1 0)
           (mutation_at 4 "B" 2 (-1))
           example_kids (Node 0 Empty (Node 1 Empty Empty)));
    try reflexivity.
  - simpl. lia.
  - now left.
  - discriminate.
Defined.

Lemma leaves_of_nonempty u c : (0 < length (leaves_of u (leaves c) c))%nat.
Proof.
  revert u. induction c as [|v cc IHc ss _]; intros u; cbn [leaves_of length];
    [lia|].
  cbn [leaves]. rewrite length_app. specialize (IHc v). lia.
Qed.

(** X10. The resolver trusts the mutation times: when the mutation that
    leaves the causal allele is the older of the two, it comes first, its
    removal finds the list empty, and the resolver raises [ValueError]. *)
Theorem back_mutation_older_than_parent fuel ts tree s a mX mY p kidsY :
  encodes_tree (left_child_array tree) (right_sib_array tree)
    (node mY) kidsY = true ->
  (length (ids kidsY) < fuel)%nat ->
  mutations s = [mX; mY] \/ mutations s = [mY; mX] ->
  (time mX < time mY)%Q ->
  derived_state mY <> a ->
  mutation ts (parent mY) = Ok p -> derived_state p = a ->
  causal_mutation_sample_nodes fuel ts tree s a = Raise ValueError.
Proof.
  intros HY Hfuel Hm Ht HdY Hp Hdp.
  unfold causal_mutation_sample_nodes.
  rewrite (sorted_pair_older_first mY mX _ Ht) by tauto.
  cbn [resolve]. apply String.eqb_neq in HdY. rewrite HdY, Hp. cbn [bind].
  apply String.eqb_eq in Hdp. rewrite Hdp.
  rewrite (obtain_sample_nodes_tree _ _ _ _ _ HY Hfuel). cbn [bind].
  pose proof (leaves_of_nonempty (node mY) kidsY) as Hpos.
  destruct (length (leaves_of (node mY) (leaves kidsY) kidsY)); [lia|].
  reflexivity.
Qed.

Lemma back_mutation_older_than_parent_example :
  causal_mutation_sample_nodes 5
    (ts_of [mutation_at 4 "B" 1 (-1); mutation_at 3 "A" 2 0]) example_tree
    (site_of [mutation_at 4 "B" 1 (-1); mutation_at 3 "A" 2 0]) "B"
  = Raise ValueError.
Proof.
  apply (back_mutation_older_than_parent 5 _ example_tree _ "B"
           (mutation_at 4 "B" 1 (-1)) (mutation_at 3 "A" 2 0)
           (mutation_at 4 "B" 1 (-1))
           (Node 0 Empty (Node 1 Empty Empty)));
    try reflexivity.
  - simpl. lia.
  - now left.
  - discriminate.
Defined.

(** ** More on the accumulator *)

(** X11. [node_genetic_value] returns a result exactly when there is no
    causal site to process and there is a sample to size the array by: the
    result is then the array of [max(samples) + 1] zeros with empty effect
    size and frequency arrays. *)
Theorem node_genetic_value_returns fuel ts site_id location causal_allele acc :
  node_genetic_value fuel ts site_id location causal_allele = Ok acc
  <-> location = []
      /\ exists m, np_max (samples ts) = Ok m /\ 0 <= m + 1
         /\ acc = {| acc_G := repeat 0%Q (Z.to_nat (m + 1));
                     acc_beta_list := [];
                     acc_frequency := [] |}.
Proof.
  unfold node_genetic_value, node_genetic_value_with, np_zeros. split.
  - intros H. inv_bind H m Hm. inv_bind H G HG.
    destruct (Z.ltb_spec (m + 1) 0); [discriminate|]. injection HG as <-.
    destruct location as [|loc rest].
    + cbn in H. injection H as <-. split; [reflexivity|].
      exists m. auto.
    + cbn [sites_loop] in H. inv_bind H cf Hcf. inv_bind H fr Hfr.
      discriminate.
  - intros (-> & m & Hm & Hpos & ->). rewrite Hm. cbn [bind].
    destruct (Z.ltb_spec (m + 1) 0); [lia|]. reflexivity.
Qed.




Lemma update_nth_twice {A} (a : list A) j x :
  update_nth (update_nth a j x) j x = update_nth a j x.
Proof.
  revert j. induction a as [|y a IH]; intros [|j]; simpl; auto.
  now rewrite IH.
Qed.

Lemma mapM_repeat (G : list Q) i v k :
  getitem G i = Ok v -> mapM (getitem G) (repeat i k) = Ok (repeat v k).
Proof.
  intros H. induction k as [|k IH]; simpl; [reflexivity|].
  rewrite H. cbn [bind]. rewrite IH. reflexivity.
Qed.

Lemma scatter_repeat (G : list Q) i v k :
  0 <= i < len G ->
  scatter (update_nth G (Z.to_nat i) v) (repeat i k) (repeat v k)
  = Ok (update_nth G (Z.to_nat i) v).
Proof.
  intros H. induction k as [|k IH]; simpl; [reflexivity|].
  rewrite setitem_in_range by (unfold len in *; now rewrite update_nth_length).
  cbn [bind]. now rewrite update_nth_twice.
Qed.

(** X13. Line 197 on a carrier list that repeats one node id: however often
    the id occurs, its entry grows by the effect size once. *)
Theorem accumulation_on_repeated_carrier (G : list Q) i k beta :
  0 <= i < len G ->
  fancy_iadd G (repeat i (S k)) beta
  = Ok (update_nth G (Z.to_nat i) (nth (Z.to_nat i) G 0 + beta)%Q).
Proof.
  intros H. unfold fancy_iadd.
  rewrite (mapM_repeat G i _ (S k) (getitem_nonneg G i H)). cbn [bind].
  rewrite map_repeat. cbn [repeat scatter].
  rewrite setitem_in_range by assumption. cbn [bind].
  now apply scatter_repeat.
Qed.

Lemma accumulation_on_repeated_carrier_example :
  fancy_iadd [0; 0; 0]%Q (repeat 2 3) 2 = Ok [0; 0; 0 + 2]%Q.
Proof.
  apply (accumulation_on_repeated_carrier [0; 0; 0]%Q 2 2 2). cbn. lia.
Defined.

(** ** More on the reducer *)

Lemma getitem_out_of_range {A} (a : list A) i :
  ~ (- len a <= i < len a) -> getitem a i = Raise IndexError.
Proof.
  intros H. unfold getitem, norm_index.
  destruct (Z.ltb_spec i 0).
  - destruct (Z.leb_spec 0 (i + len a)); [lia|reflexivity].
  - destruct (Z.leb_spec 0 i); [|lia].
    destruct (Z.ltb_spec i (len a)); [lia|reflexivity].
Qed.

Lemma getitem_cases {A} (a : list A) i :
  (exists x, getitem a i = Ok x) \/ getitem a i = Raise IndexError.
Proof.
  unfold getitem. destruct (norm_index a i); [|now right].
  destruct (nth_error a n); [left; eauto|now right].
Qed.

Lemma gather_out_of_range {A} (G : list A) idx :
  (exists s, In s idx /\ ~ (- len G <= s < len G)) ->
  mapM (getitem G) idx = Raise IndexError.
Proof.
  induction idx as [|i idx IH]; intros (s & Hin & Hs); [destruct Hin|].
  simpl. destruct Hin as [->|Hin].
  - now rewrite (getitem_out_of_range G s Hs).
  - destruct (getitem_cases G i) as [(x & ->)| ->]; [|reflexivity].
    cbn [bind]. rewrite IH by eauto. reflexivity.
Qed.

(** X14. A sample id that is no Python index of the value array makes the
    reducer raise [IndexError]. *)
Theorem individual_genetic_out_of_range ts (G : list Q) s :
  In s (samples ts) -> ~ (- len G <= s < len G) ->
  individual_genetic ts G = Raise IndexError.
Proof.
  intros Hin Hs. unfold individual_genetic.
  rewrite gather_out_of_range by eauto. reflexivity.
Qed.

Lemma individual_genetic_out_of_range_example :
  individual_genetic (example_ts [0; 5] [] []) [1; 2]%Q = Raise IndexError.
Proof.
  apply (individual_genetic_out_of_range _ _ 5).
  - right. now left.
  - cbn. lia.
Defined.

(** X15. With three genome copies the reducer pairs the middle copy with
    both of the others, and with one copy it returns no value at all. *)
Theorem individual_genetic_small_odd ts G :
  (forall a b c, mapM (getitem G) (samples ts) = Ok [a; b; c] ->
     individual_genetic ts G = Ok [(a + b)%Q; (c + b)%Q])
  /\ (forall a, mapM (getitem G) (samples ts) = Ok [a] ->
        individual_genetic ts G = Ok []).
Proof.
  split; intros; unfold individual_genetic; rewrite H; reflexivity.
Qed.

Lemma fold_max_ge r : forall x y, (y <= x \/ In y r) -> y <= fold_left Z.max r x.
Proof.
  induction r as [|z r IH]; intros x y; simpl.
  - intros [H|[]]. exact H.
  - intros [H|[->|H]]; apply IH; auto; left; lia.
Qed.

Lemma np_max_ge a m s : np_max a = Ok m -> In s a -> s <= m.
Proof.
  destruct a as [|x r]; simpl; [discriminate|].
  intros [= <-] [->|H]; apply fold_max_ge; auto. left; lia.
Qed.

Lemma gather_in_range_length (G : list Q) idx :
  (forall i, In i idx -> 0 <= i < len G) ->
  exists vals, mapM (getitem G) idx = Ok vals /\ length vals = length idx.
Proof.
  intros H. rewrite gather_in_range by assumption.
  eexists. split; [reflexivity|]. apply length_map.
Qed.

(** X16. The array [node_genetic_value] allocates fits the reducer: with
    [max(samples) + 1] entries, non-negative sample ids and an even number
    of samples, the reducer returns half as many values as there are
    samples. *)
Theorem individual_genetic_fits ts (G : list Q) m :
  np_max (samples ts) = Ok m -> len G = m + 1 ->
  (forall s, In s (samples ts) -> 0 <= s) ->
  Nat.even (length (samples ts)) = true ->
  exists r,
    individual_genetic ts G = Ok r
    /\ length r = Nat.div2 (length (samples ts)).
Proof.
  intros Hm Hl Hs Hev.
  destruct (gather_in_range_length G (samples ts)) as (vals & E & Hlen).
  { intros s Hin. pose proof (np_max_ge _ _ _ Hm Hin). specialize (Hs s Hin). lia. }
  unfold individual_genetic. rewrite E. cbn [bind]. unfold np_add.
  destruct (slice2_length vals) as [-> ->]. rewrite Hlen.
  rewrite (even_div2 _ Hev), Nat.eqb_refl.
  eexists. split; [reflexivity|].
  rewrite zip_add_slices. destruct (pair_sums_nth vals) as [-> _].
  now rewrite Hlen.
Qed.

Lemma individual_genetic_fits_example :
  exists r,
    individual_genetic (example_ts [0; 1; 2; 3] [] []) [1; 3; 2; 4]%Q = Ok r
    /\ length r = Nat.div2 (length [0; 1; 2; 3]).
Proof.
  apply (individual_genetic_fits (example_ts [0; 1; 2; 3] [] []) _ 3).
  - reflexivity.
  - reflexivity.
  - intros s [<-|[<-|[<-|[<-|[]]]]]; lia.
  - reflexivity.
Defined.

(** ** [environment] *)


Lemma zip_add_nth a b i :
  length a = length b -> (i < length a)%nat ->
  nth i (zip_add a b) 0%Q = (nth i a 0 + nth i b 0)%Q.
Proof.
  revert b i. induction a as [|x a IH]; intros [|y b] [|i] H Hi;
    simpl in *; try lia; [reflexivity|].
  apply IH; lia.
Qed.

Lemma np_add_same_length a b r :
  length a = length b -> np_add a b = Ok r -> r = zip_add a b.
Proof.
  intros H. unfold np_add. rewrite H, Nat.eqb_refl. now intros [= <-].
Qed.

Section Environment.

Variable rng : Generator.

(** The sampler returns as many draws as it is asked for. *)
Hypothesis normal_size :
  forall loc sc size E, normal rng loc sc size = Ok E -> len E = size.

Lemma environment_cases G h2 trait_sd phenotype E :
  environment rng G h2 trait_sd = Ok (phenotype, E) ->
  G <> [] /\ (0 <= h2 <= 1)%Q /\ length E = length G
  /\ ((h2 == 1)%Q /\ phenotype = G /\ E = repeat 0%Q (length G)
      \/ (h2 == 0)%Q /\ phenotype = E
      \/ ~ (h2 == 0)%Q /\ phenotype = zip_add G E).
Proof.
  unfold environment.
  destruct (Z.eqb_spec (len G) 0) as [|Hlen]; [discriminate|].
  destruct (Qltb 1 h2) eqn:H1; [discriminate|].
  destruct (Qltb h2 0) eqn:H0; [discriminate|]. cbn [orb].
  unfold Qltb in H0, H1. apply negb_false_iff in H0, H1.
  apply Qle_bool_iff in H0, H1.
  assert (G <> []) as HG by (intros ->; apply Hlen; reflexivity).
  destruct (Qeq_bool h2 1) eqn:E1.
  - intros [= <- <-]. apply Qeq_bool_iff in E1.
    unfold len. rewrite Nat2Z.id.
    split; [exact HG|]. split; [auto|]. split; [apply repeat_length|].
    left. auto.
  - destruct (Qeq_bool h2 0) eqn:E0.
    + intros H. inv_bind H E' HE. injection H as <- <-.
      apply normal_size in HE. apply Qeq_bool_iff in E0.
      split; [exact HG|]. split; [auto|].
      split; [unfold len in HE; lia|]. right. left. auto.
    + intros H. inv_bind H E' HE. inv_bind H ph Hph. injection H as <- <-.
      apply normal_size in HE.
      assert (length G = length E') as Hl by (unfold len in HE; lia).
      apply np_add_same_length in Hph; [|exact Hl].
      split; [exact HG|]. split; [auto|]. split; [lia|]. right. right.
      split; [|exact Hph]. intros Hq. apply Qeq_bool_iff in Hq. congruence.
Qed.


(** X18. The phenotype [environment] returns is the genetic value plus the
    noise, entry by entry, unless the heritability is 0, where it is the
    noise alone. *)
Theorem environment_phenotype G h2 trait_sd phenotype E :
  environment rng G h2 trait_sd = Ok (phenotype, E) ->
  ((h2 == 0)%Q -> phenotype = E)
  /\ (~ (h2 == 0)%Q ->
      forall i, (i < length G)%nat ->
        (nth i phenotype 0 == nth i G 0 + nth i E 0)%Q).
Proof.
  intros H. apply environment_cases in H.
  destruct H as (HG & Hh & HE & [(H1 & -> & ->)|[(H0 & ->)|(H0 & ->)]]).
  - split.
    + intros H0. rewrite H0 in H1. discriminate H1.
    + intros _ i Hi. rewrite nth_repeat. now rewrite Qplus_0_r.
  - split; [reflexivity|]. intros Hn. contradiction.
  - split; [intros Hq; contradiction|].
    intros _ i Hi. rewrite zip_add_nth by lia. reflexivity.
Qed.

End Environment.

Lemma zero_rng_size loc sc size E :
  normal zero_rng loc sc size = Ok E -> len E = size.
Proof.
  cbn. destruct (Z.ltb_spec size 0); [discriminate|].
  intros [= <-]. unfold len. rewrite repeat_length. lia.
Qed.


Lemma environment_phenotype_example :
  environment zero_rng [1; 3]%Q (1 # 2) 1 = Ok ([1; 3]%Q, [0; 0]%Q)
  /\ ((1 # 2 == 0)%Q -> [1; 3]%Q = [0; 0]%Q)
  /\ (~ (1 # 2 == 0)%Q ->
      forall i, (i < length [1; 3]%Q)%nat ->
        (nth i [1; 3] 0 == nth i [1; 3] 0 + nth i [0; 0] 0)%Q).
Proof.
  split; [reflexivity|].
  apply (environment_phenotype zero_rng zero_rng_size [1; 3]%Q (1 # 2) 1).
  reflexivity.
Defined.

(** ** [update_node_values_array_access] *)

Lemma bind_bind {A B C} (r : result A) (f : A -> result B) (g : B -> result C) :
  bind (bind r f) g = bind r (fun a => bind (f a) g).
Proof. destruct r; reflexivity. Qed.

Lemma getitem_at_node (a : list Q) x :
  0 <= x < len a -> getitem a x = Ok (at_node a x).
Proof. apply getitem_nonneg. Qed.

Lemma at_node_update_same (a : list Q) x v :
  0 <= x < len a -> at_node (update_nth a (Z.to_nat x) v) x = v.
Proof.
  intros H. unfold at_node. apply update_nth_same. unfold len in H. lia.
Qed.

Lemma at_node_update_other (a : list Q) x y v :
  0 <= x -> 0 <= y -> x <> y ->
  at_node (update_nth a (Z.to_nat x) v) y = at_node a y.
Proof.
  intros Hx Hy H. unfold at_node. apply update_nth_diff. lia.
Qed.

Section Values.

Variables lc rs : list Z.

Lemma encodes_ids_nonneg f :
  encodes lc rs f = true -> forall x, In x (ids f) -> 0 <= x.
Proof.
  induction f as [|u c IHc s IHs]; intros Henc x; simpl; [tauto|].
  apply encodes_inv in Henc. destruct Henc as (Hu & _ & _ & Hc & Hs).
  rewrite in_app_iff. intros [<-|[H|H]]; auto.
Qed.

Lemma path_values_In nv a f x v leaf :
  In (x, v, leaf) (path_values nv a f) -> In x (ids f).
Proof.
  revert a. induction f as [|u c IHc s IHs]; intros a; simpl; [tauto|].
  rewrite !in_app_iff. intros [H|[H|H]]; eauto.
  injection H as Hx _ _. auto.
Qed.

Lemma path_values_ext nv1 nv2 f :
  (forall x, In x (ids f) -> at_node nv1 x = at_node nv2 x) ->
  forall a, path_values nv1 a f = path_values nv2 a f.
Proof.
  induction f as [|u c IHc s IHs]; intros H a; simpl; [reflexivity|].
  rewrite (H u) by (simpl; auto).
  rewrite IHc, IHs; [reflexivity| |];
    intros x Hx; apply H; simpl; rewrite in_app_iff; auto.
Qed.

Lemma forest_empty_dec (c : forest) : {c = Empty} + {c <> Empty}.
Proof. destruct c; [now left|now right]. Qed.

Lemma nonempty_first c :
  encodes lc rs c = true -> c <> Empty ->
  (first c =? NONE) = false /\ is_leaf c = false.
Proof.
  destruct c as [|w cc cs]; intros Hc Hne; [contradiction|].
  split; [exact (first_not_NONE _ _ _ _ _ Hc)|reflexivity].
Qed.

(** What the arrays look like after the nodes of [f] have been pushed,
    with [above] added to the roots, and popped again. *)
Definition updated (f : forest) (above : Q) (nv G nv' G' : list Q) : Prop :=
  length nv' = length nv /\ length G' = length G
  /\ (forall y, 0 <= y -> ~ In y (ids f) ->
        at_node nv' y = at_node nv y /\ at_node G' y = at_node G y)
  /\ (forall x v leaf, In (x, v, leaf) (path_values nv above f) ->
        at_node nv' x = v
        /\ at_node G' x = if leaf then (at_node G x + v)%Q else at_node G x).

Lemma update_forest f :
  encodes lc rs f = true ->
  NoDup (ids f) ->
  forall parent pf n stack nv G,
    ~ In parent (ids f) -> 0 <= parent < len nv ->
    (forall x, In x (ids f) -> x < len nv /\ x < len G) ->
    (length (roots f) <= pf)%nat ->
    exists nv' G',
      bind (push_children_values pf rs parent (first f) stack nv)
        (fun st => update_loop (length (ids f) + n) lc rs (fst st) (snd st) G)
      = update_loop n lc rs stack nv' G'
      /\ updated f (at_node nv parent) nv G nv' G'.
Proof.
  induction f as [|u c IHc s IHs]; intros Henc Hnd parent pf n stack nv G
    Hpar Hpr Hr Hpf.
  - exists nv, G. split.
    + destruct pf; reflexivity.
    + unfold updated. split; [reflexivity|]. split; [reflexivity|].
      split; [auto|]. intros x v leaf [].
  - pose proof (encodes_ids_nonneg _ Henc) as Hpos.
    pose proof (first_not_NONE _ _ _ _ _ Henc) as HuN.
    apply encodes_inv in Henc. destruct Henc as (Hu & Hl & Hrs & Hc & Hs).
    cbn [ids] in *. apply NoDup_cons_iff in Hnd. destruct Hnd as [Hu_notin Hnd].
    rewrite in_app_iff in Hu_notin.
    pose proof (NoDup_app_remove_l _ _ Hnd) as Hnd_s.
    pose proof (NoDup_app_remove_r _ _ Hnd) as Hnd_c.
    assert (forall x, In x (ids c) -> ~ In x (ids s)) as Hdisj.
    { intros x Hx Hx'. revert Hnd Hx Hx'. clear.
      induction (ids c) as [|y l IH]; simpl; [tauto|].
      intros Hnd. apply NoDup_cons_iff in Hnd. destruct Hnd as [Hy Hnd].
      rewrite in_app_iff in Hy. intros [<-|Hx] Hx'; [tauto|]. now apply IH. }
    assert (u <> parent) as Hup by (intros ->; apply Hpar; now left).
    destruct (Hr u (or_introl eq_refl)) as [Hu_nv Hu_G].
    set (a := at_node nv parent).
    set (v := (at_node nv u + a)%Q).
    set (nv1 := update_nth nv (Z.to_nat u) v).
    assert (length nv1 = length nv) as Hl1 by apply update_nth_length.
    destruct pf as [|pf]; [simpl in Hpf; lia|].
    cbn [first push_children_values]. rewrite HuN.
    rewrite (getitem_at_node nv u) by lia. cbn [bind].
    rewrite (getitem_at_node nv parent) by lia. cbn [bind].
    rewrite (setitem_in_range nv u) by lia. cbn [bind].
    rewrite Hrs. cbn [bind]. fold a v nv1.
    cbn [length]. rewrite length_app.
    replace (S (length (ids c) + length (ids s)) + n)%nat
      with (length (ids s) + S (length (ids c) + n))%nat by lia.
    destruct (IHs Hs Hnd_s parent pf (S (length (ids c) + n)) (stack ++ [u]) nv1 G)
      as (nv2 & G2 & E2 & Hl2 & HlG2 & Hout2 & Hpath2).
    { intros H. apply Hpar. right. apply in_or_app. now right. }
    { unfold len in *. rewrite Hl1. lia. }
    { intros x Hx. unfold len. rewrite Hl1. apply Hr. right. apply in_or_app. now right. }
    { simpl in Hpf. lia. }
    assert (at_node nv1 parent = a) as Hpar1
      by (unfold nv1; rewrite at_node_update_other by lia; reflexivity).
    rewrite Hpar1 in Hpath2.
    assert (path_values nv1 a s = path_values nv a s) as Hext_s.
    { apply path_values_ext. intros x Hx. unfold nv1.
      apply at_node_update_other; [lia|apply Hpos; right; apply in_or_app; now right|].
      intros ->. tauto. }
    rewrite Hext_s in Hpath2.
    rewrite E2. cbn [update_loop]. rewrite pop_snoc.
    assert (at_node nv2 u = v) as Hu2.
    { destruct (Hout2 u Hu) as [-> _]; [tauto|].
      unfold nv1. apply at_node_update_same. lia. }
    assert (at_node G2 u = at_node G u) as HuG2
      by (destruct (Hout2 u Hu) as [_ ->]; [tauto|reflexivity]).
    unfold visit_values. rewrite Hl. cbn [bind].
    destruct (forest_empty_dec c) as [->|Hne].
    + (* a leaf *)
      cbn [first]. rewrite Z.eqb_refl. cbn [negb].
      rewrite (getitem_at_node G2 u) by (unfold len in *; lia). cbn [bind].
      rewrite (getitem_at_node nv2 u) by (unfold len in *; lia). cbn [bind].
      rewrite (setitem_in_range G2 u) by (unfold len in *; lia). cbn [bind].
      cbn [vs_stack vs_node_values vs_G length Nat.add].
      rewrite Hu2, HuG2.
      exists nv2, (update_nth G2 (Z.to_nat u) (at_node G u + v)%Q).
      split; [reflexivity|].
      split; [lia|]. split; [rewrite update_nth_length; lia|]. split.
      * intros y Hy Hny. cbn [ids app] in Hny.
        assert (u <> y) by (intros ->; apply Hny; now left).
        destruct (Hout2 y Hy) as [Ey1 Ey2]; [intros H'; apply Hny; now right|].
        split.
        -- rewrite Ey1. unfold nv1. apply at_node_update_other; lia.
        -- rewrite at_node_update_other by lia. exact Ey2.
      * intros x w leaf. cbn [path_values app is_leaf]. fold a v.
        intros [[= <- <- <-]|Hin].
        -- split; [exact Hu2|].
           apply at_node_update_same. unfold len in *. lia.
        -- pose proof (path_values_In _ _ _ _ _ _ Hin) as Hx.
           destruct (Hpath2 _ _ _ Hin) as [-> HG].
           split; [reflexivity|].
           rewrite at_node_update_other;
             [exact HG|lia|apply Hpos; right; exact Hx|intros ->; tauto].
    + (* an inner node *)
      destruct (nonempty_first c Hc Hne) as [HcN Hleaf].
      rewrite HcN. cbn [negb].
      rewrite bind_bind. cbn [bind vs_stack vs_node_values vs_G].
      destruct (IHc Hc Hnd_c u (length (ids c) + n)%nat n stack nv2 G2)
        as (nv3 & G3 & E3 & Hl3 & HlG3 & Hout3 & Hpath3).
      { tauto. }
      { unfold len in *. lia. }
      { intros x Hx. unfold len in *. rewrite Hl2, HlG2, Hl1.
        apply Hr. right. apply in_or_app. now left. }
      { pose proof (roots_le_ids c). lia. }
      rewrite Hu2 in Hpath3.
      assert (path_values nv2 v c = path_values nv v c) as Hext_c.
      { apply path_values_ext. intros x Hx.
        assert (0 <= x) by (apply Hpos; right; apply in_or_app; now left).
        destruct (Hout2 x) as [-> _]; [assumption|now apply Hdisj|].
        unfold nv1. apply at_node_update_other; [lia|assumption|].
        intros ->. tauto. }
      rewrite Hext_c in Hpath3.
      exists nv3, G3. split; [exact E3|].
      split; [lia|]. split; [lia|]. split.
      * intros y Hy Hny. cbn [ids In] in Hny. rewrite in_app_iff in Hny.
        assert (u <> y) by (intros ->; apply Hny; now left).
        destruct (Hout3 y Hy) as [-> ->]; [tauto|].
        destruct (Hout2 y Hy) as [-> ->]; [tauto|].
        unfold nv1. rewrite at_node_update_other by lia. auto.
      * intros x w' leaf. cbn [path_values]. fold a v.
        intros Hin. cbn [In] in Hin. rewrite in_app_iff in Hin.
        destruct Hin as [[= <- <- <-]|[Hin|Hin]].
        -- destruct (Hout3 u Hu) as [-> ->]; [tauto|].
           rewrite Hleaf. auto.
        -- pose proof (path_values_In _ _ _ _ _ _ Hin) as Hx.
           destruct (Hpath3 _ _ _ Hin) as [-> HG].
           split; [reflexivity|].
           assert (0 <= x) by (apply Hpos; right; apply in_or_app; now left).
           destruct (Hout2 x) as [_ E]; [assumption|now apply Hdisj|].
           now rewrite <- E.
        -- pose proof (path_values_In _ _ _ _ _ _ Hin) as Hx.
           assert (0 <= x) by (apply Hpos; right; apply in_or_app; now right).
           destruct (Hout3 x) as [-> ->];
             [assumption|intros H'; exact (Hdisj x H' Hx)|].
           now apply Hpath2.
Qed.

Lemma update_tree root kids fuel nv G :
  encodes_tree lc rs root kids = true ->
  NoDup (root :: ids kids) ->
  (forall x, In x (root :: ids kids) -> x < len nv /\ x < len G) ->
  (length (ids kids) < fuel)%nat ->
  exists nv' G',
    update_node_values_array_access fuel root lc rs nv G = Ok (nv', G')
    /\ length nv' = length nv /\ length G' = length G
    /\ (forall y, 0 <= y -> ~ In y (root :: ids kids) ->
          at_node nv' y = at_node nv y /\ at_node G' y = at_node G y)
    /\ (forall x v leaf, In (x, v, leaf) (tree_values nv root kids) ->
          at_node nv' x = v
          /\ at_node G' x = if leaf then (at_node G x + v)%Q else at_node G x).
Proof.
  intros Henc Hnd Hr Hfuel.
  unfold encodes_tree in Henc. rewrite !andb_true_iff in Henc.
  destruct Henc as [[Hroot Hl] Hk]. apply Z.leb_le in Hroot.
  apply reads_getitem in Hl.
  apply NoDup_cons_iff in Hnd. destruct Hnd as [Hroot_notin Hnd].
  destruct (Hr root (or_introl eq_refl)) as [Hr_nv Hr_G].
  replace fuel with (S (length (ids kids) + (fuel - S (length (ids kids)))))%nat
    by lia.
  set (n := (fuel - S (length (ids kids)))%nat).
  unfold update_node_values_array_access. change [root] with ([] ++ [root]).
  cbn [update_loop]. rewrite pop_snoc.
  unfold visit_values. rewrite Hl. cbn [bind].
  destruct (forest_empty_dec kids) as [->|Hne].
  - cbn [first]. rewrite Z.eqb_refl. cbn [negb].
    rewrite (getitem_at_node G root) by lia. cbn [bind].
    rewrite (getitem_at_node nv root) by lia. cbn [bind].
    rewrite (setitem_in_range G root) by lia. cbn [bind].
    cbn [vs_stack vs_node_values vs_G length Nat.add].
    exists nv, (update_nth G (Z.to_nat root) (at_node G root + at_node nv root)%Q).
    split; [destruct n; reflexivity|].
    split; [reflexivity|]. split; [apply update_nth_length|]. split.
    + intros y Hy Hny. split; [reflexivity|].
      apply at_node_update_other; [lia|lia|]. intros ->. apply Hny. now left.
    + intros x v leaf [[= <- <- <-]|[]].
      split; [reflexivity|]. apply at_node_update_same. lia.
  - destruct (nonempty_first kids Hk Hne) as [HkN Hleaf].
    rewrite HkN. cbn [negb]. rewrite bind_bind.
    cbn [bind vs_stack vs_node_values vs_G].
    destruct (update_forest kids Hk Hnd root (length (ids kids) + n)%nat n [] nv G)
      as (nv' & G' & E & Hl1 & Hl2 & Hout & Hpath).
    { exact Hroot_notin. }
    { lia. }
    { intros x Hx. apply Hr. now right. }
    { pose proof (roots_le_ids kids). lia. }
    rewrite E. exists nv', G'.
    split; [destruct n; reflexivity|].
    split; [exact Hl1|]. split; [exact Hl2|]. split.
    + intros y Hy Hny. apply Hout; [exact Hy|]. intros H. apply Hny. now right.
    + intros x v leaf [[= <- <- <-]|Hin].
      * rewrite Hleaf. now apply Hout.
      * now apply Hpath.
Qed.

End Values.

Lemma path_values_nodes nv a f :
  map (fun t => fst (fst t)) (path_values nv a f) = ids f.
Proof.
  revert a. induction f as [|u c IHc s IHs]; intros a; simpl; [reflexivity|].
  now rewrite map_app, IHc, IHs.
Qed.

(** X19. On arrays that encode a tree under [root] without a repeated
    node, all of them indices of [node_values] and [G], the traversal
    returns for every fuel above the number of nodes below the root.  It
    adds to the entry of [G] of every leaf the sum of the values from the
    root down to that leaf, and leaves every other entry of [G] as it
    was. *)
Theorem update_node_values_G lc rs root kids fuel nv G :
  encodes_tree lc rs root kids = true ->
  NoDup (root :: ids kids) ->
  (forall x, In x (root :: ids kids) -> x < len nv /\ x < len G) ->
  (length (ids kids) < fuel)%nat ->
  exists nv' G',
    update_node_values_array_access fuel root lc rs nv G = Ok (nv', G')
    /\ length G' = length G
    /\ map (fun t => fst (fst t)) (tree_values nv root kids) = root :: ids kids
    /\ (forall x v, In (x, v, true) (tree_values nv root kids) ->
          at_node G' x = (at_node G x + v)%Q)
    /\ (forall x v, In (x, v, false) (tree_values nv root kids) ->
          at_node G' x = at_node G x)
    /\ (forall y, 0 <= y -> ~ In y (root :: ids kids) ->
          at_node G' y = at_node G y).
Proof.
  intros Henc Hnd Hr Hfuel.
  destruct (update_tree lc rs root kids fuel nv G Henc Hnd Hr Hfuel)
    as (nv' & G' & E & _ & HlG & Hout & Hpath).
  exists nv', G'. split; [exact E|]. split; [exact HlG|].
  split; [cbn; now rewrite path_values_nodes|].
  split; [|split].
  - intros x v Hin. now destruct (Hpath _ _ _ Hin).
  - intros x v Hin. now destruct (Hpath _ _ _ Hin).
  - intros y Hy Hny. now destruct (Hout y Hy Hny).
Qed.

Lemma update_node_values_G_example :
  exists nv' G',
    update_node_values_array_access 5 4
      (left_child_array example_tree) (right_sib_array example_tree)
      [1; 2; 3; 4; 5; 0]%Q [0; 0; 0; 0; 0; 0]%Q = Ok (nv', G')
    /\ length G' = 6%nat
    /\ map (fun t => fst (fst t)) (tree_values [1; 2; 3; 4; 5; 0]%Q 4 example_kids)
       = 4 :: ids example_kids
    /\ (forall x v, In (x, v, true) (tree_values [1; 2; 3; 4; 5; 0]%Q 4 example_kids) ->
          at_node G' x = (at_node [0; 0; 0; 0; 0; 0]%Q x + v)%Q)
    /\ (forall x v, In (x, v, false) (tree_values [1; 2; 3; 4; 5; 0]%Q 4 example_kids) ->
          at_node G' x = at_node [0; 0; 0; 0; 0; 0]%Q x)
    /\ (forall y, 0 <= y -> ~ In y (4 :: ids example_kids) ->
          at_node G' y = at_node [0; 0; 0; 0; 0; 0]%Q y).
Proof.
  apply (update_node_values_G (left_child_array example_tree)
           (right_sib_array example_tree) 4 example_kids 5).
  - reflexivity.
  - nodup_list.
  - intros x [<-|[<-|[<-|[<-|[<-|[]]]]]]; cbn; lia.
  - simpl. lia.
Defined.

(** X20. Under the same conditions the traversal leaves in [node_values],
    for every node of the tree, the sum of the values from the root down
    to that node, and every other entry as it was. *)
Theorem update_node_values_sums lc rs root kids fuel nv G :
  encodes_tree lc rs root kids = true ->
  NoDup (root :: ids kids) ->
  (forall x, In x (root :: ids kids) -> x < len nv /\ x < len G) ->
  (length (ids kids) < fuel)%nat ->
  exists nv' G',
    update_node_values_array_access fuel root lc rs nv G = Ok (nv', G')
    /\ length nv' = length nv
    /\ (forall x v leaf, In (x, v, leaf) (tree_values nv root kids) ->
          at_node nv' x = v)
    /\ (forall y, 0 <= y -> ~ In y (root :: ids kids) ->
          at_node nv' y = at_node nv y).
Proof.
  intros Henc Hnd Hr Hfuel.
  destruct (update_tree lc rs root kids fuel nv G Henc Hnd Hr Hfuel)
    as (nv' & G' & E & Hl & _ & Hout & Hpath).
  exists nv', G'. split; [exact E|]. split; [exact Hl|]. split.
  - intros x v leaf Hin. now destruct (Hpath _ _ _ Hin).
  - intros y Hy Hny. now destruct (Hout y Hy Hny).
Qed.

Lemma update_node_values_sums_example :
  exists nv' G',
    update_node_values_array_access 5 4
      (left_child_array example_tree) (right_sib_array example_tree)
      [1; 2; 3; 4; 5; 0]%Q [0; 0; 0; 0; 0; 0]%Q = Ok (nv', G')
    /\ length nv' = 6%nat
    /\ (forall x v leaf,
          In (x, v, leaf) (tree_values [1; 2; 3; 4; 5; 0]%Q 4 example_kids) ->
          at_node nv' x = v)
    /\ (forall y, 0 <= y -> ~ In y (4 :: ids example_kids) ->
          at_node nv' y = at_node [1; 2; 3; 4; 5; 0]%Q y).
Proof.
  apply (update_node_values_sums (left_child_array example_tree)
           (right_sib_array example_tree) 4 example_kids 5).
  - reflexivity.
  - nodup_list.
  - intros x [<-|[<-|[<-|[<-|[<-|[]]]]]]; cbn; lia.
  - simpl. lia.
Defined.
